(** * thin-trait-objects: the C consumers of the thin trait-object library

    The repository's C sources are two small programs, [example/main.c] and
    [examples/ffi/main.c].  Both drive a [FileHandle] through the library's
    C interface ([thin_trait_objects.h]); the second one also defines a
    handle variant of its own, [CustomFileHandle], through the library's
    builder.  This file embeds those sources and states what they do.

    Conventions of the embedding:
    - a C [int] is a [Z] kept in the 32-bit two's-complement range by
      [CInt.wrap];
    - a C string is a [string]; the text a C function sees is the part in
      front of the first NUL character ([Libc.c_str]);
    - the heap block behind [custom->buffer] is a list of characters whose
      length is the size of the allocation;
    - a loop without an evident bound takes a [fuel] argument, and running
      out of fuel is the result [None]. *)

From Stdlib Require Import ZArith List String Ascii Lia Bool DecimalString.
Import ListNotations.
Local Open Scope string_scope.
Local Open Scope list_scope.
Local Open Scope Z_scope.

(** ** Machine integers *)

Module CInt.

Definition INT_MAX : Z := 2 ^ 31 - 1.
Definition INT_MIN : Z := - 2 ^ 31.

(** The value an [int] holds after an arithmetic result [z] is stored in it
    (two's-complement wrap-around). *)
Definition wrap (z : Z) : Z := (z + 2 ^ 31) mod 2 ^ 32 - 2 ^ 31.

Definition in_range (z : Z) : Prop := INT_MIN <= z <= INT_MAX.

End CInt.

(** ** The part of the C library the sources call *)

Module Libc.

Definition NUL : ascii := Ascii.zero.

(** The text of a C string: everything in front of the first NUL. *)
Fixpoint c_str (s : string) : string :=
  match s with
  | EmptyString => EmptyString
  | String c rest => if Ascii.eqb c NUL then EmptyString else String c (c_str rest)
  end.

Definition strlen (s : string) : Z := Z.of_nat (String.length (c_str s)).

(** [strcmp]: only the sign of the result is specified by C. *)
Definition strcmp (a b : string) : Z :=
  match String.compare (c_str a) (c_str b) with
  | Eq => 0
  | Lt => -1
  | Gt => 1
  end.

(** [strstr haystack needle != NULL]. *)
Fixpoint strstr_at (haystack needle : string) : bool :=
  if String.prefix needle haystack then true
  else match haystack with
       | EmptyString => false
       | String _ rest => strstr_at rest needle
       end.

Definition strstr (haystack needle : string) : bool :=
  strstr_at (c_str haystack) (c_str needle).

(** [printf("%d", z)]. *)
Definition printf_d (z : Z) : string := NilZero.string_of_int (Z.to_int z).

(** A heap block.  [Some bytes] is a live allocation of [length bytes]
    bytes with the given contents.  [None] is a block whose contents C no
    longer defines, because an earlier access left the allocation. *)
Definition block : Type := option (list ascii).

(** [malloc(n)]: the contents of fresh memory are whatever the allocator
    left there; [fresh i] is the byte found at offset [i].  Allocation is
    taken to succeed, as the sources assume. *)
Definition malloc (n : Z) (fresh : nat -> ascii) : block :=
  Some (map fresh (seq 0 (Z.to_nat n))).

(** [realloc(p, n)]: the old contents up to the smaller of the two sizes,
    then fresh memory. *)
Definition realloc (p : block) (n : Z) (fresh : nat -> ascii) : block :=
  match p with
  | None => None
  | Some bytes =>
      let keep := firstn (Z.to_nat n) bytes in
      Some (keep ++ map fresh (seq (List.length keep) (Z.to_nat n - List.length keep)))
  end.

(** Offset of the first NUL of a block, when there is one inside it. *)
Fixpoint find_nul (bytes : list ascii) : option nat :=
  match bytes with
  | [] => None
  | c :: rest => if Ascii.eqb c NUL then Some O else option_map S (find_nul rest)
  end.

(** Overwrite [length src] bytes of a block from offset [k] on. *)
Definition write_at (bytes : list ascii) (k : nat) (src : list ascii) : block :=
  if (k + List.length src <=? List.length bytes)%nat
  then Some (firstn k bytes ++ src ++ skipn (k + List.length src) bytes)
  else None.

(** The characters [strncat] copies: at most [n] of them, and [n] is a
    [size_t], so that a negative [int] argument is a huge bound. *)
Definition strncat_source (src : string) (n : Z) : list ascii :=
  let text := list_ascii_of_string (c_str src) in
  if n <? 0 then text else firstn (Z.to_nat n) text.

(** [strncat(dest, src, n)]: look for the end of the string in [dest],
    copy there and terminate. *)
Definition strncat (dest : block) (src : string) (n : Z) : block :=
  match dest with
  | None => None
  | Some bytes =>
      match find_nul bytes with
      | None => None
      | Some k => write_at bytes k (strncat_source src n ++ [NUL])
      end
  end.

(** [p[i] = c]. *)
Definition store (p : block) (i : Z) (c : ascii) : block :=
  match p with
  | None => None
  | Some bytes =>
      if (0 <=? i) && (i <? Z.of_nat (List.length bytes))
      then write_at bytes (Z.to_nat i) [c]
      else None
  end.

(** What [printf("%s", p)] prints for a block: its text, when the block
    holds a terminated string. *)
Definition read_string (p : block) : option string :=
  match p with
  | None => None
  | Some bytes =>
      match find_nul bytes with
      | None => None
      | Some k => Some (string_of_list_ascii (firstn k bytes))
      end
  end.

End Libc.

Import CInt Libc.

(** ** [examples/ffi/main.c]: the custom handle *)

(** [typedef struct { int total_bytes_written; int capacity; char *buffer; }
    CustomFileHandle;] with the block [buffer] points to in place of the
    pointer. *)
Record CustomFileHandle : Type := mkCustom {
  total_bytes_written : Z;
  capacity : Z;
  buffer : block
}.

(** [int next_power_of_two(int value)]: the [while (power < value)] loop,
    one unit of fuel per test of the condition. *)
Fixpoint next_power_of_two_loop (fuel : nat) (power value : Z) : option Z :=
  match fuel with
  | O => None
  | S fuel' =>
      if power <? value
      then next_power_of_two_loop fuel' (wrap (power * 2)) value
      else Some power
  end.

Definition next_power_of_two (fuel : nat) (value : Z) : option Z :=
  next_power_of_two_loop fuel 1 value.

(** [int custom_write(void *handle, const char *data, int len)].  The
    result is the payload after the call, the value returned and the text
    printed; [None] when the call stays in the loop of
    [next_power_of_two].  A result whose [buffer] is [None] stands for a
    call one of whose stores left the allocation: C gives such a call no
    meaning, and the process may be killed there instead of returning. *)
Definition custom_write (fuel : nat) (fresh : nat -> ascii)
    (custom : CustomFileHandle) (data : string) (len : Z)
  : option (CustomFileHandle * Z * string) :=
  let total := wrap (total_bytes_written custom + len) in
  let printed := ("[" ++ printf_d total ++ "] " ++ c_str data)%string in
  let resized :=
    if total >=? capacity custom
    then match next_power_of_two fuel total with
         | Some cap => Some (cap, realloc (buffer custom) cap fresh)
         | None => None
         end
    else Some (capacity custom, buffer custom) in
  match resized with
  | None => None
  | Some (cap, buf) =>
      let buf := strncat buf data len in
      let buf := store buf total NUL in
      Some (mkCustom total cap buf, len, printed)
  end.

Definition BEGIN_FLUSH : string := "[BEGIN FLUSH]".
Definition END_FLUSH : string := "[END FLUSH]".

(** [int custom_flush(void *handle)].  The text printed is [None] when
    [buffer] does not hold a terminated string. *)
Definition custom_flush (fresh : nat -> ascii) (custom : CustomFileHandle)
  : CustomFileHandle * Z * option string :=
  let printed :=
    option_map (fun text => (BEGIN_FLUSH ++ text ++ END_FLUSH)%string)
               (read_string (buffer custom)) in
  (mkCustom 0 16 (malloc 16 fresh), 0, printed).

(** [void custom_destroy(void *handle)]: [free(custom->buffer)].  The
    block is gone afterwards. *)
Definition custom_destroy (custom : CustomFileHandle) : CustomFileHandle :=
  mkCustom (total_bytes_written custom) (capacity custom) None.

(** ** The library behind [thin_trait_objects.h]

    The library itself is not among the C sources; the consumers only see
    its header.  The part of it the properties below rest on is written
    down here from the design document. *)

Module Mechanism.

(** A reference to a behaviour (a C function pointer). *)
Inductive fn_ref : Type :=
| NullFn
| Fn (name : string).

(** [FileHandleBuilder]: the two pointers the builder hands back. *)
Record FileHandleBuilder : Type := mkBuilder {
  file_handle : Z;
  place : Z
}.

(** Modelled from the spec: the bookkeeping needed for dispatch, the three
    behaviour references, stored in the same allocation in front of the
    payload. *)
Record Header : Type := mkHeader {
  header_destroy : fn_ref;
  header_write : fn_ref;
  header_flush : fn_ref
}.

Definition round_up (n a : Z) : Z := (n + a - 1) / a * a.

Section Builder.

(** Size and alignment of the dispatch bookkeeping, and the allocator:
    [alloc size align] is the address of a new block, [None] when the
    request cannot be satisfied. *)
Variables (header_size header_align : Z).
Variable alloc : Z -> Z -> option Z.

(** Modelled from the spec: where the payload starts inside the one
    allocation, the first multiple of its alignment behind the
    bookkeeping. *)
Definition payload_offset (payload_alignment : Z) : Z :=
  round_up header_size payload_alignment.

(** Modelled from the spec: [new_file_handle_builder], whose source is not
    in the repository's C files.  One allocation, large enough and aligned
    enough for the dispatch bookkeeping and for a payload of the requested
    size and alignment; the result is the payload region and the handle
    wired to the three behaviours, or a null result when the allocation
    cannot be satisfied. *)
Definition new_file_handle_builder (payload_size payload_alignment : Z)
    (destroy write flush : fn_ref) : FileHandleBuilder * option Header :=
  let offset := payload_offset payload_alignment in
  match alloc (offset + payload_size) (Z.max header_align payload_alignment) with
  | Some base => (mkBuilder base (base + offset), Some (mkHeader destroy write flush))
  | None => (mkBuilder 0 0, None)
  end.

End Builder.

(** Modelled from the spec: the behaviour table of a variant, three
    operations over the variant's payload.  A call that does not return is
    [None]. *)
Record BehaviorTable (P : Type) : Type := mkTable {
  write_fn : P -> string -> Z -> option (P * Z);
  flush_fn : P -> option (P * Z);
  destroy_fn : P -> P
}.

Arguments write_fn {P} _ _ _ _.
Arguments flush_fn {P} _ _.
Arguments destroy_fn {P} _ _.

(** Modelled from the spec: a handle pairs one behaviour table with the
    payload of the same variant. *)
Record Handle : Type := mkHandle {
  payload_type : Type;
  behaviors : BehaviorTable payload_type;
  payload : payload_type
}.

(** Modelled from the spec: [file_handle_write], whose source is not in
    the repository's C files.  Look up the handle's behaviour table, invoke
    its write operation with the payload, the data and the length, and
    relay the variant's own return value unchanged. *)
Definition file_handle_write (h : Handle) (data : string) (len : Z)
  : option (Handle * Z) :=
  match write_fn (behaviors h) (payload h) data len with
  | Some (p, r) => Some (mkHandle (payload_type h) (behaviors h) p, r)
  | None => None
  end.

(** Modelled from the spec: [file_handle_flush], whose source is not in
    the repository's C files.  Invoke the handle's flush operation with its
    payload and relay the status. *)
Definition file_handle_flush (h : Handle) : option (Handle * Z) :=
  match flush_fn (behaviors h) (payload h) with
  | Some (p, r) => Some (mkHandle (payload_type h) (behaviors h) p, r)
  | None => None
  end.

(** Modelled from the spec: the write contract of a behaviour table
    (result at most [length], negative on failure): a call with a
    non-negative length that returns, returns at most that length. *)
Definition write_contract {P : Type} (t : BehaviorTable P) : Prop :=
  forall (p p' : P) (data : string) (len r : Z),
    0 <= len -> write_fn t p data len = Some (p', r) -> r <= len.

End Mechanism.

Import Mechanism.

(** ** [examples/ffi/main.c]: building the custom handle *)

(** [sizeof(CustomFileHandle)] and [alignof(CustomFileHandle)] on an LP64
    target: two 4-byte ints followed by an 8-byte pointer. *)
Definition sizeof_CustomFileHandle : Z := 16.
Definition alignof_CustomFileHandle : Z := 8.

(** The fields as [custom_file_handle] sets them. *)
Definition initial_payload (fresh : nat -> ascii) : CustomFileHandle :=
  mkCustom 0 16 (store (malloc 16 fresh) 0 NUL).

(** [FileHandle *custom_file_handle()].  The result is the handle pointer
    and the initialised payload; [None] when the initialising stores go
    through a null [builder.place]. *)
Definition custom_file_handle (header_size header_align : Z)
    (alloc : Z -> Z -> option Z) (fresh : nat -> ascii)
  : option (Z * CustomFileHandle) :=
  let builder :=
    fst (new_file_handle_builder header_size header_align alloc
           sizeof_CustomFileHandle alignof_CustomFileHandle
           (Fn "custom_destroy") (Fn "custom_write") (Fn "custom_flush")) in
  if place builder =? 0 then None
  else Some (file_handle builder, initial_payload fresh).

(** The custom variant as a behaviour table; the text it prints is left
    out. *)
Definition custom_table (fuel : nat) (fresh : nat -> ascii)
  : BehaviorTable CustomFileHandle :=
  mkTable CustomFileHandle
    (fun custom data len =>
       match custom_write fuel fresh custom data len with
       | Some (custom', r, _) => Some (custom', r)
       | None => None
       end)
    (fun custom =>
       match custom_flush fresh custom with
       | (custom', r, _) => Some (custom', r)
       end)
    custom_destroy.

(** ** Sequences of calls on a custom handle *)

Inductive call : Type :=
| Write (data : string) (len : Z)
| Flush.

(** Run the calls in order.  Each call sees its own fresh memory:
    [fresh n] is what the allocator hands out when [n] calls remain after
    the current one. *)
Fixpoint run (fuel : nat) (fresh : nat -> nat -> ascii)
    (custom : CustomFileHandle) (calls : list call) : option CustomFileHandle :=
  match calls with
  | [] => Some custom
  | Write data len :: rest =>
      match custom_write fuel (fresh (List.length rest)) custom data len with
      | Some (custom', _, _) => run fuel fresh custom' rest
      | None => None
      end
  | Flush :: rest =>
      match custom_flush (fresh (List.length rest)) custom with
      | (custom', _, _) => run fuel fresh custom' rest
      end
  end.

(** Sum of the lengths of all the writes of a sequence. *)
Fixpoint written_since_construction (calls : list call) : Z :=
  match calls with
  | [] => 0
  | Write _ len :: rest => len + written_since_construction rest
  | Flush :: rest => written_since_construction rest
  end.

(** Sum of the lengths of the writes after the last flush, on top of
    [acc] bytes accumulated before the sequence. *)
Fixpoint written_since_flush (acc : Z) (calls : list call) : Z :=
  match calls with
  | [] => acc
  | Write _ len :: rest => written_since_flush (acc + len) rest
  | Flush :: rest => written_since_flush 0 rest
  end.

(** Largest accumulated size for which a power of two fits an [int]. *)
Definition MAX_SIZE : Z := 2 ^ 30.

(** Every length is non-negative and the size accumulated between two
    flushes never passes [MAX_SIZE]. *)
Fixpoint within_limit (acc : Z) (calls : list call) : Prop :=
  match calls with
  | [] => True
  | Write _ len :: rest =>
      0 <= len /\ acc + len <= MAX_SIZE /\ within_limit (acc + len) rest
  | Flush :: rest => within_limit 0 rest
  end.

(** The payloads a handle can be in: the initial one, and what writes
    with a non-negative length and flushes make of it. *)
Inductive reachable : CustomFileHandle -> Prop :=
| reachable_initial : forall fresh, reachable (initial_payload fresh)
| reachable_write : forall fuel fresh custom data len custom' r printed,
    reachable custom -> 0 <= len ->
    custom_write fuel fresh custom data len = Some (custom', r, printed) ->
    reachable custom'
| reachable_flush : forall fresh custom custom' r printed,
    reachable custom ->
    custom_flush fresh custom = (custom', r, printed) ->
    reachable custom'.

Definition is_power_of_two (p : Z) : Prop := exists k, 0 <= k /\ p = 2 ^ k.

(** [p] is the smallest power of two that is at least [value]. *)
Definition next_power_from (value p : Z) : Prop :=
  is_power_of_two p /\ value <= p /\
  forall q, is_power_of_two q -> value <= q -> p <= q.

(** ** The two [main] programs *)

Module Programs.

(** What a run of a program does to the outside, in order. *)
Inductive event : Type :=
| Stderr (text : string)
| Perror (message : string)
| NewCustom
| NewFromPath (path : string)
| NewStdout
| WriteCall (data : string) (len result : Z)
| FlushCall (result : Z)
| DestroyCall.

Definition newline : string := String "010" EmptyString.
Definition greeting : string := ("Hello, World" ++ newline)%string.

Definition open_failed : string := "Unable to open the file handle".
Definition greeting_failed : string := "Unable to write a nice message".
Definition copy_failed : string := "Unable to copy from stdin to the file handle".
Definition flush_failed : string := "Flushing failed".

(** Put an event in front of what the rest of the run does. *)
Definition emit (e : event) (rest : Z * list event) : Z * list event :=
  (fst rest, e :: snd rest).

Definition is_help (arg : string) : bool :=
  (strcmp arg "-h" =? 0) || (strcmp arg "--help" =? 0).

Section Consumers.

(** The library as the programs see it through [thin_trait_objects.h].
    A constructor returns [None] for a null handle; a write or a flush
    returns the handle's new state and the call's result. *)
Variable FileHandle : Type.
Variable new_file_handle_from_path : string -> option FileHandle.
Variable new_stdout_file_handle : option FileHandle.
Variable custom_file_handle : option FileHandle.
Variable file_handle_write : FileHandle -> string -> Z -> FileHandle * Z.
Variable file_handle_flush : FileHandle -> FileHandle * Z.

(** *** [example/main.c] *)

(** The [for] loop over [argv[1..]]: does it reach a help flag? *)
Fixpoint example_args (args : list string) : bool :=
  match args with
  | [] => false
  | arg :: rest => if is_help arg then true else example_args rest
  end.

(** The [while (fgets(...))] loop and what follows it.  [stdin] lists the
    buffers the successive [fgets] calls fill, up to end of file. *)
Fixpoint example_copy (handle : FileHandle) (stdin : list string)
  : Z * list event :=
  match stdin with
  | [] => (0, [DestroyCall])
  | buffer :: rest =>
      let len := strlen buffer in
      let (handle', bytes_written) := file_handle_write handle buffer len in
      if bytes_written <? 0
      then (1, [WriteCall buffer len bytes_written; Perror copy_failed; DestroyCall])
      else emit (WriteCall buffer len bytes_written) (example_copy handle' rest)
  end.

(** The steps shared by both programs once a handle is there: the
    greeting, then the copy loop [copy]. *)
Definition greet_then (copy : FileHandle -> list string -> Z * list event)
    (handle : FileHandle) (stdin : list string) : Z * list event :=
  let len := strlen greeting in
  let (handle', bytes_written) := file_handle_write handle greeting len in
  if negb (bytes_written =? len)
  then (1, [WriteCall greeting len bytes_written; Perror greeting_failed; DestroyCall])
  else emit (WriteCall greeting len bytes_written) (copy handle' stdin).

Definition example_main (argv stdin : list string) : Z * list event :=
  if example_args (tl argv)
  then (0, [Stderr ("Usage: " ++ hd "" argv ++ " [input]" ++ newline)%string])
  else
    let output_file := nth_error argv 1 in
    let (constructed, handle) :=
      match output_file with
      | Some path => (NewFromPath path, new_file_handle_from_path path)
      | None => (NewStdout, new_stdout_file_handle)
      end in
    match handle with
    | None => (1, [constructed; Perror open_failed])
    | Some handle => emit constructed (greet_then example_copy handle stdin)
    end.

(** *** [examples/ffi/main.c] *)

(** The [for] loop over [argv[1..]]: [None] when it reaches a help flag,
    otherwise the final value of [custom]. *)
Fixpoint ffi_args (args : list string) (custom : bool) : option bool :=
  match args with
  | [] => Some custom
  | arg :: rest =>
      if is_help arg then None
      else if (strcmp arg "-c" =? 0) || negb (strcmp arg "--custom" =? 0)
           then ffi_args rest true
           else ffi_args rest custom
  end.

Fixpoint ffi_copy (handle : FileHandle) (stdin : list string)
  : Z * list event :=
  match stdin with
  | [] => (0, [DestroyCall])
  | buffer :: rest =>
      let len := strlen buffer in
      let (handle', bytes_written) := file_handle_write handle buffer len in
      if bytes_written <? 0
      then (1, [WriteCall buffer len bytes_written; Perror copy_failed; DestroyCall])
      else
        if strstr buffer "flush"
        then
          let (handle'', ret) := file_handle_flush handle' in
          if negb (ret =? 0)
          then (ret, [WriteCall buffer len bytes_written; FlushCall ret;
                      Perror flush_failed])
          else emit (WriteCall buffer len bytes_written)
                 (emit (FlushCall ret) (ffi_copy handle'' rest))
        else emit (WriteCall buffer len bytes_written) (ffi_copy handle' rest)
  end.

Definition ffi_main (argv stdin : list string) : Z * list event :=
  match ffi_args (tl argv) false with
  | None =>
      (0, [Stderr ("Usage: " ++ hd "" argv ++ " [input] [-c|--custom]" ++ newline)%string])
  | Some custom =>
      let output_file := nth_error argv 1 in
      let (constructed, handle) :=
        if custom then (NewCustom, custom_file_handle)
        else match output_file with
             | Some path => (NewFromPath path, new_file_handle_from_path path)
             | None => (NewStdout, new_stdout_file_handle)
             end in
      match handle with
      | None => (1, [constructed; Perror open_failed])
      | Some handle => emit constructed (greet_then ffi_copy handle stdin)
      end
  end.

End Consumers.

(** *** Readings of a trace *)

Definition is_destroy (e : event) : bool :=
  match e with DestroyCall => true | _ => false end.

Definition uses_handle (e : event) : bool :=
  match e with WriteCall _ _ _ | FlushCall _ => true | _ => false end.

(** Number of [file_handle_destroy] calls of a trace. *)
Definition destroy_count (t : list event) : nat :=
  List.length (filter is_destroy t).

(** No write or flush follows a destroy. *)
Fixpoint no_use_after_destroy (t : list event) : bool :=
  match t with
  | [] => true
  | e :: rest =>
      (if is_destroy e then forallb (fun e' => negb (uses_handle e')) rest else true)
      && no_use_after_destroy rest
  end.

(** The buffers handed to [file_handle_write], in order. *)
Fixpoint written_buffers (t : list event) : list (string * Z) :=
  match t with
  | [] => []
  | WriteCall data len _ :: rest => (data, len) :: written_buffers rest
  | _ :: rest => written_buffers rest
  end.

(** The results of the [file_handle_write] calls, in order. *)
Fixpoint write_results (t : list event) : list Z :=
  match t with
  | [] => []
  | WriteCall _ _ r :: rest => r :: write_results rest
  | _ :: rest => write_results rest
  end.

(** What the copy loop hands to [file_handle_write] for a buffer. *)
Definition whole_buffer (buffer : string) : string * Z := (buffer, strlen buffer).

(** *** A stand-in library

    A handle is the number of bytes it accepted so far; a write accepts
    everything; [flush_status] is what every flush reports. *)
Definition sink_write (handle : Z) (data : string) (len : Z) : Z * Z :=
  (handle + len, len).

Definition sink_flush (flush_status : Z) (handle : Z) : Z * Z :=
  (handle, flush_status).

Definition sink_example_main : list string -> list string -> Z * list event :=
  example_main Z (fun _ => Some 0) (Some 0) sink_write.

Definition sink_ffi_main (flush_status : Z)
  : list string -> list string -> Z * list event :=
  ffi_main Z (fun _ => Some 0) (Some 0) (Some 0) sink_write (sink_flush flush_status).

End Programs.

(** The capacity the growth policy arrives at for an accumulated size:
    a power of two from 16 on that holds the size and, unless it is still
    16, is less than twice the size. *)
Definition capacity_for (total cap : Z) : Prop :=
  16 <= cap /\ is_power_of_two cap /\ total <= cap /\
  (cap = 16 \/ cap < 2 * total).

(** The buffer of a payload holds the terminated text [text]: the block
    is as large as the capacity says, it starts with the characters of
    [text], none of them NUL, followed by a NUL, and the counter is not
    behind the text. *)
Definition holds_text (custom : CustomFileHandle) (text : list ascii) : Prop :=
  exists rest,
    buffer custom = Some (text ++ NUL :: rest) /\
    Z.of_nat (List.length (text ++ NUL :: rest)) = capacity custom /\
    ~ In NUL text /\
    Z.of_nat (List.length text) <= total_bytes_written custom.

(** ** The calls a copy loop is to make *)

Section Served.

Variable FileHandle : Type.
Variable write : FileHandle -> string -> Z -> FileHandle * Z.
Variable flush : FileHandle -> FileHandle * Z.

(** One write for every buffer, the whole buffer each time, each on the
    handle the call before left behind: the buffer, its length and what
    the write returned. *)
Fixpoint write_each (handle : FileHandle) (buffers : list string)
  : list (string * Z * Z) :=
  match buffers with
  | [] => []
  | buffer :: rest =>
      let (handle', r) := write handle buffer (strlen buffer) in
      (buffer, strlen buffer, r) :: write_each handle' rest
  end.

(** The same, with one flush behind every write that was not refused and
    whose buffer contains ["flush"]: the status of that flush comes
    fourth. *)
Fixpoint serve_each (handle : FileHandle) (buffers : list string)
  : list (string * Z * Z * option Z) :=
  match buffers with
  | [] => []
  | buffer :: rest =>
      let (handle', r) := write handle buffer (strlen buffer) in
      if (0 <=? r) && strstr buffer "flush"
      then let (handle'', ret) := flush handle' in
           (buffer, strlen buffer, r, Some ret) :: serve_each handle'' rest
      else (buffer, strlen buffer, r, None) :: serve_each handle' rest
  end.

End Served.

(** The calls up to the first write with a negative result, that one
    included. *)
Fixpoint until_negative (calls : list (string * Z * Z)) : list (string * Z * Z) :=
  match calls with
  | [] => []
  | (data, len, r) :: rest =>
      if r <? 0 then [(data, len, r)] else (data, len, r) :: until_negative rest
  end.

(** The calls up to the first write with a negative result or the first
    flush with a status other than 0, that one included. *)
Fixpoint until_failure (calls : list (string * Z * Z * option Z))
  : list (string * Z * Z * option Z) :=
  match calls with
  | [] => []
  | (data, len, r, flushed) :: rest =>
      if r <? 0 then [(data, len, r, flushed)]
      else match flushed with
           | Some ret =>
               if negb (ret =? 0) then [(data, len, r, flushed)]
               else (data, len, r, flushed) :: until_failure rest
           | None => (data, len, r, flushed) :: until_failure rest
           end
  end.

(** The writes of a trace: data, length and result, in order. *)
Fixpoint write_calls (t : list Programs.event) : list (string * Z * Z) :=
  match t with
  | [] => []
  | Programs.WriteCall data len r :: rest => (data, len, r) :: write_calls rest
  | _ :: rest => write_calls rest
  end.

(** The writes of a trace, each with the status of the flush that comes
    right behind it, when one does. *)
Fixpoint served (t : list Programs.event) : list (string * Z * Z * option Z) :=
  match t with
  | [] => []
  | Programs.WriteCall data len r :: rest =>
      (data, len, r,
       match rest with
       | Programs.FlushCall ret :: _ => Some ret
       | _ => None
       end) :: served rest
  | _ :: rest => served rest
  end.

(** ** Handles of a variant whose operations return *)

(** The behaviour table of a variant given by operations that always
    return. *)
Definition total_table {P : Type} (w : P -> string -> Z -> P * Z)
    (f : P -> P * Z) (d : P -> P) : BehaviorTable P :=
  mkTable P (fun p data len => Some (w p data len)) (fun p => Some (f p)) d.

(** [file_handle_write] and [file_handle_flush] as the programs call
    them, on handles whose calls return; the branch for a call that does
    not return is not taken for the tables of [total_table]. *)
Definition through_write (h : Handle) (data : string) (len : Z) : Handle * Z :=
  match Mechanism.file_handle_write h data len with
  | Some result => result
  | None => (h, -1)
  end.

Definition through_flush (h : Handle) : Handle * Z :=
  match Mechanism.file_handle_flush h with
  | Some result => result
  | None => (h, -1)
  end.

(** ** Sample environments

    Fresh memory that happens to be zeroed, fresh memory that still holds
    the bytes ['X'], ['Y'] of an earlier use, an allocator with nothing
    left, and one that hands out the block at address 4096. *)

Definition zeroed : nat -> ascii := fun _ => NUL.

Definition stale : nat -> ascii :=
  fun i => match i with
           | O => "X"%char
           | S O => "Y"%char
           | _ => NUL
           end.

Definition out_of_memory : Z -> Z -> option Z := fun _ _ => None.

Definition block_at_4096 : Z -> Z -> option Z := fun _ _ => Some 4096.



(** ** Readings of a sequence of calls *)

(** The text the writes of a sequence put in the buffer behind [text]:
    each write adds what [strncat] copies of its data, each flush starts
    over. *)
Fixpoint buffered_since_flush (text : list ascii) (calls : list call)
  : list ascii :=
  match calls with
  | [] => text
  | Write data len :: rest =>
      buffered_since_flush (text ++ strncat_source data len) rest
  | Flush :: rest => buffered_since_flush [] rest
  end.

(** No write of the sequence brings the accumulated size to a power of
    two from 16 on. *)
Fixpoint clear_of_powers (acc : Z) (calls : list call) : Prop :=
  match calls with
  | [] => True
  | Write _ len :: rest =>
      (acc + len < 16 \/ ~ is_power_of_two (acc + len)) /\
      clear_of_powers (acc + len) rest
  | Flush :: rest => clear_of_powers 0 rest
  end.

(** ** Further readings of a trace *)

Import Programs.

Definition is_perror (e : event) : bool :=
  match e with Perror _ => true | _ => false end.

Definition is_flush (e : event) : bool :=
  match e with FlushCall _ => true | _ => false end.

(** Calls into the library: constructors, writes, flushes, destroys. *)
Definition is_library_call (e : event) : bool :=
  match e with
  | Stderr _ | Perror _ => false
  | _ => true
  end.

(** Every flush of the trace comes right after a write of a buffer that
    contains ["flush"] and was not refused. *)
Fixpoint flushes_follow_requests (t : list event) : Prop :=
  match t with
  | [] => True
  | FlushCall _ :: _ => False
  | WriteCall data _ r :: FlushCall _ :: rest =>
      strstr data "flush" = true /\ 0 <= r /\ flushes_follow_requests rest
  | _ :: rest => flushes_follow_requests rest
  end.


(** * Properties *)

Import Programs.

(** ** Sample runs of the embedding *)

Example wrap_past_int_max : wrap (2 ^ 30 * 2) = - 2 ^ 31.
Proof. reflexivity. Qed.

Example next_power_of_two_of_20 : next_power_of_two 32 20 = Some 32.
Proof. reflexivity. Qed.

Example next_power_of_two_of_16 : next_power_of_two 32 16 = Some 16.
Proof. reflexivity. Qed.

Example strlen_stops_at_nul : strlen (String "a" (String NUL "b")) = 1.
Proof. reflexivity. Qed.

Example strcmp_custom_flag : strcmp "--custom" "--custom" = 0 /\ strcmp "x" "--custom" = 1.
Proof. split; reflexivity. Qed.

Example custom_write_hello :
  custom_write 32 zeroed (initial_payload zeroed) greeting 13
  = Some (mkCustom 13 16
            (Some (list_ascii_of_string greeting ++ repeat NUL 3)),
          13, ("[13] " ++ greeting)%string).
Proof. reflexivity. Qed.

Example example_main_copies_two_lines :
  sink_example_main ["main"; "out.txt"] ["a"; "b"]
  = (0, [NewFromPath "out.txt"; WriteCall greeting 13 13;
         WriteCall "a" 1 1; WriteCall "b" 1 1; DestroyCall]).
Proof. reflexivity. Qed.

Example ffi_main_flushes_on_request :
  sink_ffi_main 0 ["main"] ["hi"; "flush"]
  = (0, [NewStdout; WriteCall greeting 13 13; WriteCall "hi" 2 2;
         WriteCall "flush" 5 5; FlushCall 0; DestroyCall]).
Proof. reflexivity. Qed.

Example ffi_main_help :
  sink_ffi_main 0 ["main"; "-c"; "--help"] ["hi"]
  = (0, [Stderr ("Usage: main [input] [-c|--custom]" ++ newline)%string]).
Proof. reflexivity. Qed.

(** ** Machine integers and powers of two *)

Lemma wrap_in_range (z : Z) : INT_MIN <= z <= INT_MAX -> wrap z = z.
Proof.
  unfold wrap, INT_MIN, INT_MAX. intros H.
  rewrite Z.mod_small; lia.
Qed.

Lemma wrap_range (z : Z) : INT_MIN <= wrap z <= INT_MAX.
Proof.
  unfold wrap, INT_MIN, INT_MAX.
  pose proof (Z.mod_pos_bound (z + 2 ^ 31) (2 ^ 32) ltac:(lia)). lia.
Qed.

Lemma pow2_pos (k : Z) : 0 <= k -> 0 < 2 ^ k.
Proof. intros. apply Z.pow_pos_nonneg; lia. Qed.

Lemma pow2_le (i j : Z) : 0 <= i <= j -> 2 ^ i <= 2 ^ j.
Proof. intros. apply Z.pow_le_mono_r; lia. Qed.

Lemma pow2_double (i : Z) : 0 <= i -> 2 ^ i * 2 = 2 ^ (i + 1).
Proof. intros. rewrite Z.pow_add_r by lia. lia. Qed.

Lemma pow2_lt_inv (i j : Z) : 0 <= i -> 0 <= j -> 2 ^ i < 2 ^ j -> i < j.
Proof.
  intros Hi Hj H.
  destruct (Z_lt_le_dec i j) as [|Hle]; [assumption|].
  pose proof (pow2_le j i ltac:(lia)). lia.
Qed.

Lemma is_power_of_two_pos (p : Z) : is_power_of_two p -> 1 <= p.
Proof.
  intros [k [Hk ->]]. pose proof (pow2_pos k Hk). lia.
Qed.

(** A power of two just above half of [value] is the smallest one from
    [value] on. *)
Lemma next_power_from_intro (value k : Z) :
  0 <= k -> value <= 2 ^ k -> (k = 0 \/ 2 ^ (k - 1) < value) ->
  next_power_from value (2 ^ k).
Proof.
  intros Hk Hle Hmin. repeat split.
  - exists k. auto.
  - assumption.
  - intros q [j [Hj ->]] Hq.
    destruct Hmin as [-> | Hlt].
    + pose proof (pow2_pos j Hj). simpl. lia.
    + apply pow2_le. split; [assumption|].
      destruct (Z.eq_dec k 0) as [->|Hk0]; [assumption|].
      assert (k - 1 < j) by (apply pow2_lt_inv; lia). lia.
Qed.

Lemma next_power_from_unique (value p q : Z) :
  next_power_from value p -> next_power_from value q -> p = q.
Proof.
  intros (Hp & Hvp & Hpmin) (Hq & Hvq & Hqmin).
  pose proof (Hpmin q Hq Hvq). pose proof (Hqmin p Hp Hvp). lia.
Qed.

(** ** [next_power_of_two] *)

Lemma next_power_of_two_loop_step (fuel : nat) (power value : Z) :
  next_power_of_two_loop (S fuel) power value =
  if power <? value
  then next_power_of_two_loop fuel (wrap (power * 2)) value
  else Some power.
Proof. reflexivity. Qed.

(** The loop from [2 ^ i] on, for a value a power of two can reach. *)
Lemma next_power_of_two_loop_reaches (value : Z) (n : nat) :
  forall (fuel : nat) (i : Z),
    value <= 2 ^ 30 -> 0 <= i <= 30 -> (i = 0 \/ 2 ^ (i - 1) < value) ->
    Z.to_nat (30 - i) = n -> (n < fuel)%nat ->
    exists k, i <= k <= 30 /\ value <= 2 ^ k /\ (k = 0 \/ 2 ^ (k - 1) < value) /\
              next_power_of_two_loop fuel (2 ^ i) value = Some (2 ^ k).
Proof.
  induction n as [|n IH]; intros fuel i Hv Hi Hmin Hn Hfuel.
  - assert (i = 30) by lia. subst i.
    destruct fuel as [|fuel]; [lia|]. rewrite next_power_of_two_loop_step.
    destruct (Z.ltb_spec (2 ^ 30) value) as [Hlt|Hge]; [lia|].
    exists 30. repeat split; solve [lia | assumption].
  - destruct fuel as [|fuel]; [lia|]. rewrite next_power_of_two_loop_step.
    destruct (Z.ltb_spec (2 ^ i) value) as [Hlt|Hge].
    + assert (Hi30 : i < 30).
      { destruct (Z_lt_le_dec i 30) as [|Hle]; [assumption|].
        assert (i = 30) by lia. subst i. lia. }
      rewrite pow2_double by lia.
      pose proof (pow2_le (i + 1) 30 ltac:(lia)) as Hup.
      pose proof (pow2_pos (i + 1) ltac:(lia)) as Hpos.
      rewrite wrap_in_range
        by (unfold INT_MIN, INT_MAX; change (2 ^ 31) with (2 * 2 ^ 30); lia).
      destruct (IH fuel (i + 1)) as (k & Hk & Hvk & Hkmin & Hrun);
        try lia.
      * right. replace (i + 1 - 1) with i by lia. assumption.
      * exists k. repeat split; try lia; assumption.
    + exists i. repeat split; try lia; assumption.
Qed.

(** Once [power] is 0 the loop cannot leave. *)
Lemma next_power_of_two_loop_zero (value : Z) (fuel : nat) :
  0 < value -> next_power_of_two_loop fuel 0 value = None.
Proof.
  intros Hv. induction fuel as [|fuel IH]; [reflexivity|].
  rewrite next_power_of_two_loop_step.
  destruct (Z.ltb_spec 0 value); [|lia]. exact IH.
Qed.

(** Past [2 ^ 30] the doubling wraps to [INT_MIN], then to 0. *)
Lemma next_power_of_two_loop_overflow (value : Z) (n : nat) :
  forall (fuel : nat) (i : Z),
    2 ^ 30 < value -> 0 <= i <= 30 -> Z.to_nat (30 - i) = n ->
    next_power_of_two_loop fuel (2 ^ i) value = None.
Proof.
  induction n as [|n IH]; intros fuel i Hv Hi Hn.
  - assert (i = 30) by lia. subst i.
    destruct fuel as [|fuel]; [reflexivity|]. rewrite next_power_of_two_loop_step.
    destruct (Z.ltb_spec (2 ^ 30) value) as [_|]; [|lia].
    change (wrap (2 ^ 30 * 2)) with (- 2 ^ 31).
    destruct fuel as [|fuel]; [reflexivity|]. rewrite next_power_of_two_loop_step.
    destruct (Z.ltb_spec (- 2 ^ 31) value) as [_|]; [|lia].
    change (wrap (- 2 ^ 31 * 2)) with 0.
    apply next_power_of_two_loop_zero. lia.
  - destruct fuel as [|fuel]; [reflexivity|]. rewrite next_power_of_two_loop_step.
    pose proof (pow2_le i 30 ltac:(lia)).
    destruct (Z.ltb_spec (2 ^ i) value) as [_|]; [|lia].
    rewrite pow2_double by lia.
    pose proof (pow2_le (i + 1) 30 ltac:(lia)) as Hup.
    pose proof (pow2_pos (i + 1) ltac:(lia)) as Hpos.
    rewrite wrap_in_range
      by (unfold INT_MIN, INT_MAX; change (2 ^ 31) with (2 * 2 ^ 30); lia).
    apply IH; lia.
Qed.

Lemma next_power_of_two_diverges (fuel : nat) (value : Z) :
  2 ^ 30 < value -> next_power_of_two fuel value = None.
Proof.
  intros Hv. unfold next_power_of_two. change 1 with (2 ^ 0).
  apply (next_power_of_two_loop_overflow value (Z.to_nat 30)); lia.
Qed.

Lemma next_power_of_two_returns (fuel : nat) (value : Z) :
  (32 <= fuel)%nat -> value <= 2 ^ 30 ->
  exists k, 0 <= k <= 30 /\ value <= 2 ^ k /\ (k = 0 \/ 2 ^ (k - 1) < value) /\
            next_power_of_two fuel value = Some (2 ^ k).
Proof.
  intros Hfuel Hv. unfold next_power_of_two. change 1 with (2 ^ 0).
  apply (next_power_of_two_loop_reaches value (Z.to_nat 30)); lia.
Qed.

(** A result of the loop is one of the values [power] goes through. *)
Lemma next_power_of_two_result (fuel : nat) (value p : Z) :
  1 <= value -> next_power_of_two fuel value = Some p ->
  value <= 2 ^ 30 /\ next_power_from value p.
Proof.
  intros Hv Hrun.
  destruct (Z_le_gt_dec value (2 ^ 30)) as [Hle|Hgt].
  - split; [assumption|].
    destruct fuel as [|fuel]; [discriminate|].
    destruct (Nat.le_gt_cases 32 (S fuel)) as [Hbig|Hsmall].
    + destruct (next_power_of_two_returns (S fuel) value Hbig Hle)
        as (k & Hk & Hvk & Hmin & Hsome).
      rewrite Hsome in Hrun. injection Hrun as <-.
      apply next_power_from_intro; lia || assumption.
    + (* with little fuel the loop agrees with a longer run *)
      assert (Hmono : forall f g power, next_power_of_two_loop f power value = Some p ->
                               (f <= g)%nat ->
                               next_power_of_two_loop g power value = Some p).
      { induction f as [|f IHf]; intros g power Hf Hfg; [discriminate|].
        destruct g as [|g]; [lia|].
        rewrite next_power_of_two_loop_step in *.
        destruct (power <? value); [apply IHf; [assumption|lia]|assumption]. }
      pose proof (Hmono (S fuel) 32%nat 1 Hrun ltac:(lia)) as Hrun32.
      destruct (next_power_of_two_returns 32 value (Nat.le_refl _) Hle)
        as (k & Hk & Hvk & Hmin & Hsome).
      unfold next_power_of_two in Hsome. rewrite Hsome in Hrun32.
      injection Hrun32 as <-.
      apply next_power_from_intro; lia || assumption.
  - rewrite next_power_of_two_diverges in Hrun by lia. discriminate.
Qed.

(** C9, as the code has it: for every [int] value from 1 to [2 ^ 30],
    [next_power_of_two] returns after at most 31 tests of its loop
    condition, and what it returns is the smallest power of two that is
    greater than or equal to the value. *)
Theorem next_power_of_two_smallest (fuel : nat) (value : Z) :
  (32 <= fuel)%nat -> 1 <= value <= MAX_SIZE ->
  exists p, next_power_of_two fuel value = Some p /\ next_power_from value p.
Proof.
  intros Hfuel [Hlo Hhi]. unfold MAX_SIZE in Hhi.
  destruct (next_power_of_two_returns fuel value Hfuel Hhi)
    as (k & Hk & Hvk & Hmin & Hrun).
  exists (2 ^ k). split; [assumption|].
  apply next_power_from_intro; lia || assumption.
Qed.

(** The theorem at the value 20. *)
Lemma next_power_of_two_smallest_at_20 :
  exists p, next_power_of_two 32 20 = Some p /\ next_power_from 20 p.
Proof.
  apply (next_power_of_two_smallest 32 20).
  - lia.
  - unfold MAX_SIZE. lia.
Defined.

(** C9 as stated fails above [2 ^ 30]: for the [int] value [2 ^ 30 + 1]
    the loop never returns, whatever the number of iterations allowed. *)
Lemma next_power_of_two_never_returns :
  ~ exists fuel p, next_power_of_two fuel (2 ^ 30 + 1) = Some p.
Proof.
  intros (fuel & p & Hrun).
  rewrite next_power_of_two_diverges in Hrun by lia. discriminate.
Qed.

(** ** [custom_write] and [custom_flush]: the integer fields *)

(** What a returning [custom_write] leaves in the fields. *)
Lemma custom_write_fields fuel fresh custom data len custom' r printed :
  custom_write fuel fresh custom data len = Some (custom', r, printed) ->
  let total := wrap (total_bytes_written custom + len) in
  r = len /\ total_bytes_written custom' = total /\
  ((total < capacity custom /\ capacity custom' = capacity custom) \/
   (capacity custom <= total /\
    next_power_of_two fuel total = Some (capacity custom'))).
Proof.
  unfold custom_write. rewrite Z.geb_leb.
  destruct (Z.leb_spec (capacity custom)
              (wrap (total_bytes_written custom + len))) as [Hge|Hlt].
  - destruct (next_power_of_two fuel (wrap (total_bytes_written custom + len)))
      as [cap|] eqn:Hcap; [|discriminate].
    intros H. injection H as <- <- _. simpl. auto.
  - intros H. injection H as <- <- _. simpl. auto.
Qed.

(** [custom_write] returns as soon as the new total is at most
    [MAX_SIZE]. *)
Lemma custom_write_returns fuel fresh custom data len :
  (32 <= fuel)%nat ->
  wrap (total_bytes_written custom + len) <= MAX_SIZE ->
  exists custom' printed,
    custom_write fuel fresh custom data len = Some (custom', len, printed).
Proof.
  intros Hfuel Hmax. unfold custom_write. rewrite Z.geb_leb.
  destruct (Z.leb_spec (capacity custom)
              (wrap (total_bytes_written custom + len))) as [Hge|Hlt].
  - destruct (next_power_of_two_returns fuel _ Hfuel Hmax)
      as (k & _ & _ & _ & Hrun).
    rewrite Hrun. eauto.
  - eauto.
Qed.

Lemma custom_flush_fields fresh custom :
  custom_flush fresh custom =
  (mkCustom 0 16 (malloc 16 fresh), 0,
   option_map (fun text => (BEGIN_FLUSH ++ text ++ END_FLUSH)%string)
              (read_string (buffer custom))).
Proof. reflexivity. Qed.

(** In every payload a handle goes through, the counter is an [int] and
    the capacity is a power of two from 16 on. *)
Lemma reachable_fields custom :
  reachable custom ->
  in_range (total_bytes_written custom) /\
  16 <= capacity custom /\ is_power_of_two (capacity custom).
Proof.
  induction 1 as [fresh
                 |fuel fresh custom data len custom' r printed _ IH Hlen Hrun
                 |fresh custom custom' r printed _ IH Hrun].
  - simpl. unfold in_range, INT_MIN, INT_MAX.
    repeat split; try lia. exists 4. split; [lia|reflexivity].
  - destruct IH as (Hrange & Hcap & Hpow).
    destruct (custom_write_fields _ _ _ _ _ _ _ _ Hrun)
      as (_ & Htotal & [[Hlt Hsame] | [Hge Hnext]]).
    + rewrite Htotal, Hsame. repeat split; try assumption; apply wrap_range.
    + apply next_power_of_two_result in Hnext; [|lia].
      destruct Hnext as (_ & Hp & Hle & _).
      rewrite Htotal. repeat split; try assumption; try apply wrap_range. lia.
  - rewrite custom_flush_fields in Hrun. injection Hrun as <- _ _. simpl.
    unfold in_range, INT_MIN, INT_MAX.
    repeat split; try lia. exists 4. split; [lia|reflexivity].
Qed.

(** A power of two is its own next power of two. *)
Lemma next_power_from_self (p : Z) : is_power_of_two p -> next_power_from p p.
Proof.
  intros Hp. repeat split; [assumption|lia|auto].
Qed.

(** One write on a payload a handle can be in: it returns, and the
    capacity follows the accumulated size. *)
Lemma custom_write_capacity_step fuel fresh custom data len :
  reachable custom -> (32 <= fuel)%nat -> 0 <= len ->
  total_bytes_written custom + len <= MAX_SIZE ->
  exists custom' printed,
    custom_write fuel fresh custom data len = Some (custom', len, printed) /\
    (capacity custom < total_bytes_written custom + len ->
     next_power_from (total_bytes_written custom + len) (capacity custom')) /\
    (total_bytes_written custom + len <= capacity custom ->
     capacity custom' = capacity custom).
Proof.
  intros Hreach Hfuel Hlen Hmax.
  destruct (reachable_fields custom Hreach) as (Hrange & Hcap & Hpow).
  assert (Hwrap : wrap (total_bytes_written custom + len) =
                  total_bytes_written custom + len).
  { apply wrap_in_range. unfold in_range, INT_MIN, INT_MAX, MAX_SIZE in *.
    change (2 ^ 31) with (2 * 2 ^ 30). lia. }
  destruct (custom_write_returns fuel fresh custom data len Hfuel)
    as (custom' & printed & Hrun); [rewrite Hwrap; assumption|].
  exists custom', printed. split; [assumption|].
  destruct (custom_write_fields _ _ _ _ _ _ _ _ Hrun)
    as (_ & _ & Hcases). rewrite Hwrap in Hcases.
  destruct Hcases as [[Hlt Hsame] | [Hge Hnext]].
  - split; [lia | auto].
  - apply next_power_of_two_result in Hnext; [|lia].
    destruct Hnext as (_ & Hnext). split; [auto|].
    intros Hle. assert (Heq : total_bytes_written custom + len = capacity custom) by lia.
    rewrite Heq in Hnext.
    apply (next_power_from_unique (capacity custom)); [assumption|].
    apply next_power_from_self. assumption.
Qed.

(** ** Sequences of writes and flushes *)

Lemma capacity_for_initial : capacity_for 0 16.
Proof.
  unfold capacity_for. split; [lia|]. split; [|split; [lia|left; reflexivity]].
  exists 4. split; [lia|reflexivity].
Qed.

(** The counter and the capacity along a sequence of calls that stays
    within [MAX_SIZE] between flushes. *)
Lemma run_fields (calls : list call) :
  forall fuel fresh custom,
    (32 <= fuel)%nat ->
    0 <= total_bytes_written custom ->
    capacity_for (total_bytes_written custom) (capacity custom) ->
    within_limit (total_bytes_written custom) calls ->
    exists custom',
      run fuel fresh custom calls = Some custom' /\
      total_bytes_written custom' =
        written_since_flush (total_bytes_written custom) calls /\
      0 <= total_bytes_written custom' /\
      capacity_for (total_bytes_written custom') (capacity custom').
Proof.
  induction calls as [|[data len|] rest IH];
    intros fuel fresh custom Hfuel Hpos Hcap Hlimit.
  - exists custom. simpl. auto.
  - simpl in Hlimit. destruct Hlimit as (Hlen & Hmax & Hrest).
    assert (Hwrap : wrap (total_bytes_written custom + len) =
                    total_bytes_written custom + len).
    { apply wrap_in_range. unfold INT_MIN, INT_MAX, MAX_SIZE in *.
      change (2 ^ 31) with (2 * 2 ^ 30). lia. }
    destruct (custom_write_returns fuel (fresh (List.length rest)) custom data len
                Hfuel) as (custom1 & printed & Hrun);
      [rewrite Hwrap; assumption|].
    destruct (custom_write_fields _ _ _ _ _ _ _ _ Hrun)
      as (_ & Htotal & Hcases).
    rewrite Hwrap in Htotal, Hcases.
    assert (Hcap1 : capacity_for (total_bytes_written custom1) (capacity custom1)).
    { destruct Hcap as (H16 & Hpow & Hfit & Hsnug). rewrite Htotal.
      destruct Hcases as [[Hlt Hsame] | [Hge Hnext]].
      - rewrite Hsame. unfold capacity_for. repeat split; try assumption; lia.
      - unfold MAX_SIZE in Hmax.
        destruct (next_power_of_two_returns fuel _ Hfuel Hmax)
          as (k & Hk & Hvk & Hmin & Hsome).
        rewrite Hsome in Hnext. injection Hnext as Hnext.
        rewrite <- Hnext. unfold capacity_for. repeat split; try lia.
        + exists k. split; [lia|reflexivity].
        + right. destruct Hmin as [-> | Hmin]; [simpl in Hvk; lia|].
          destruct (Z.eq_dec k 0) as [-> | Hk0]; [simpl in Hvk; lia|].
          replace k with (k - 1 + 1) at 1 by lia.
          rewrite <- pow2_double by lia. lia. }
    destruct (IH fuel fresh custom1 Hfuel) as (custom' & Hrest' & Hsum & Hfinal);
      [rewrite Htotal; lia | assumption | rewrite Htotal; assumption |].
    exists custom'. simpl. rewrite Hrun. rewrite Htotal in Hsum. auto.
  - simpl in Hlimit.
    destruct (IH fuel fresh (mkCustom 0 16 (malloc 16 (fresh (List.length rest))))
                Hfuel) as (custom' & Hrest' & Hsum & Hfinal);
      [simpl; lia | apply capacity_for_initial | assumption |].
    exists custom'. simpl. auto.
Qed.

(** The capacity for 20 accumulated bytes is 32. *)
Lemma capacity_for_20 (cap : Z) : capacity_for 20 cap -> cap = 32.
Proof.
  intros (H16 & (k & Hk & ->) & Hfit & [H | Hsnug]); [lia|].
  destruct (Z_le_gt_dec k 4) as [Hle|Hgt].
  - pose proof (pow2_le k 4 ltac:(lia)) as H. change (2 ^ 4) with 16 in H. lia.
  - destruct (Z_le_gt_dec 6 k) as [Hle6|Hgt6].
    + pose proof (pow2_le 6 k ltac:(lia)) as H. change (2 ^ 6) with 64 in H. lia.
    + assert (k = 5) by lia. subst k. reflexivity.
Qed.

(** The scenario of the design document: writes that total 20 bytes since
    construction or since the last flush leave the capacity at 32. *)
Lemma capacity_after_20_bytes fuel fresh fresh0 calls :
  (32 <= fuel)%nat -> within_limit 0 calls -> written_since_flush 0 calls = 20 ->
  exists custom,
    run fuel fresh (initial_payload fresh0) calls = Some custom /\
    capacity custom = 32.
Proof.
  intros Hfuel Hlimit Hsum.
  destruct (run_fields calls fuel fresh (initial_payload fresh0) Hfuel)
    as (custom & Hrun & Htotal & _ & Hcap);
    [simpl; lia | apply capacity_for_initial | assumption |].
  exists custom. split; [assumption|].
  apply capacity_for_20. simpl in Htotal. rewrite Htotal, Hsum in Hcap. assumption.
Qed.

(** C3, as the code has it: on a handle built by [custom_file_handle]
    (capacity 16), a write with a non-negative length that brings the
    accumulated size to at most [2 ^ 30] returns; when the accumulated size
    exceeds the current capacity, the capacity becomes the smallest power
    of two greater than or equal to the accumulated size; when the
    accumulated size stays within the current capacity, the capacity is
    unchanged; and writes that total 20 bytes leave the capacity at 32. *)
Theorem custom_write_capacity fuel fresh custom data len :
  reachable custom -> (32 <= fuel)%nat -> 0 <= len ->
  total_bytes_written custom + len <= MAX_SIZE ->
  (exists custom' printed,
     custom_write fuel fresh custom data len = Some (custom', len, printed) /\
     (capacity custom < total_bytes_written custom + len ->
      next_power_from (total_bytes_written custom + len) (capacity custom')) /\
     (total_bytes_written custom + len <= capacity custom ->
      capacity custom' = capacity custom)) /\
  (forall fresh' fresh0 calls,
     within_limit 0 calls -> written_since_flush 0 calls = 20 ->
     exists custom20,
       run fuel fresh' (initial_payload fresh0) calls = Some custom20 /\
       capacity custom20 = 32).
Proof.
  intros Hreach Hfuel Hlen Hmax. split.
  - apply custom_write_capacity_step; assumption.
  - intros fresh' fresh0 calls. apply capacity_after_20_bytes. assumption.
Qed.

(** The theorem at a write of 20 bytes on a new handle. *)
Lemma custom_write_capacity_at_20 :
  (exists custom' printed,
     custom_write 32 zeroed (initial_payload zeroed) "0123456789abcdefghij" 20
     = Some (custom', 20, printed) /\
     (16 < 0 + 20 -> next_power_from (0 + 20) (capacity custom')) /\
     (0 + 20 <= 16 -> capacity custom' = 16)) /\
  (forall fresh' fresh0 calls,
     within_limit 0 calls -> written_since_flush 0 calls = 20 ->
     exists custom20,
       run 32 fresh' (initial_payload fresh0) calls = Some custom20 /\
       capacity custom20 = 32).
Proof.
  apply (custom_write_capacity 32 zeroed (initial_payload zeroed)
           "0123456789abcdefghij" 20).
  - apply reachable_initial.
  - lia.
  - lia.
  - vm_compute. discriminate.
Defined.

(** A write that brings a new handle to [2 ^ 30 + 1] bytes does not
    return. *)
Lemma custom_write_overflow fuel fresh fresh0 data :
  custom_write fuel fresh (initial_payload fresh0) data (2 ^ 30 + 1) = None.
Proof.
  unfold custom_write.
  change (wrap (total_bytes_written (initial_payload fresh0) + (2 ^ 30 + 1)))
    with (2 ^ 30 + 1).
  change (2 ^ 30 + 1 >=? capacity (initial_payload fresh0)) with true.
  cbv iota. rewrite next_power_of_two_diverges by lia. reflexivity.
Qed.

(** C3 as stated fails once the accumulated size passes [2 ^ 30]: the
    write that brings a new handle to [2 ^ 30 + 1] bytes never returns, so
    the capacity never becomes a power of two from that size on. *)
Lemma custom_write_never_returns :
  ~ exists fuel fresh data custom' r printed,
      custom_write fuel fresh (initial_payload zeroed) data (2 ^ 30 + 1)
      = Some (custom', r, printed).
Proof.
  intros (fuel & fresh & data & custom' & r & printed & Hrun).
  rewrite custom_write_overflow in Hrun. discriminate.
Qed.



(** The counter is not the sum of the lengths written since
    construction: after writing 2 bytes, flushing and writing 3 bytes it
    is 3, and the lengths add up to 5. *)
Lemma counter_forgets_flushed_bytes :
  ~ forall fuel fresh fresh0 calls custom,
      run fuel fresh (initial_payload fresh0) calls = Some custom ->
      total_bytes_written custom = written_since_construction calls.
Proof.
  intros H.
  specialize (H 32%nat (fun _ => zeroed) zeroed
                [Write "ab" 2; Flush; Write "cde" 3]
                (mkCustom 3 16 (Some (list_ascii_of_string "cde" ++ repeat NUL 13)))
                eq_refl).
  discriminate H.
Qed.

(** C4 at the calls: write ["ab"] (2 bytes), flush, write ["cde"]
    (3 bytes) on a new handle.  The lengths written since construction add
    up to 5; the flush has set [total_bytes_written] back to 0, so that
    the second write leaves the counter at 3 and prints the prefix [[3]],
    not the cumulative [[5]] the comment above [CustomFileHandle]
    announces. *)
Theorem counter_restarts_at_flush :
  exists custom1 custom2 custom3,
    custom_write 32 zeroed (initial_payload zeroed) "ab" 2
    = Some (custom1, 2, "[2] ab") /\
    custom_flush zeroed custom1
    = (custom2, 0, Some "[BEGIN FLUSH]ab[END FLUSH]") /\
    total_bytes_written custom2 = 0 /\
    custom_write 32 zeroed custom2 "cde" 3 = Some (custom3, 3, "[3] cde") /\
    total_bytes_written custom3 = 3 /\
    written_since_construction [Write "ab" 2; Flush; Write "cde" 3] = 5 /\
    run 32 (fun _ => zeroed) (initial_payload zeroed)
        [Write "ab" 2; Flush; Write "cde" 3] = Some custom3.
Proof.
  eexists. eexists. eexists.
  split; [reflexivity|]. split; [reflexivity|].
  repeat split; reflexivity.
Qed.

(** ** The terminator [custom_write] stores *)

(** Where the terminator goes: inside the allocation, unless the
    accumulated size has reached the capacity and is itself a power of
    two. *)
Lemma terminator_index fuel fresh custom data len :
  reachable custom -> (32 <= fuel)%nat -> 0 <= len ->
  total_bytes_written custom + len <= MAX_SIZE ->
  exists custom' printed,
    custom_write fuel fresh custom data len = Some (custom', len, printed) /\
    (capacity custom <= total_bytes_written custom + len ->
     is_power_of_two (total_bytes_written custom + len) ->
     total_bytes_written custom' = capacity custom') /\
    (total_bytes_written custom + len < capacity custom ->
     total_bytes_written custom' < capacity custom').
Proof.
  intros Hreach Hfuel Hlen Hmax.
  destruct (custom_write_capacity_step fuel fresh custom data len Hreach Hfuel Hlen Hmax)
    as (custom' & printed & Hrun & Hgrow & Hkeep).
  exists custom', printed. split; [assumption|].
  destruct (reachable_fields custom Hreach) as (Hrange & Hcap & Hpow).
  assert (Hwrap : wrap (total_bytes_written custom + len) =
                  total_bytes_written custom + len).
  { apply wrap_in_range. unfold in_range, INT_MIN, INT_MAX, MAX_SIZE in *.
    change (2 ^ 31) with (2 * 2 ^ 30). lia. }
  destruct (custom_write_fields _ _ _ _ _ _ _ _ Hrun) as (_ & Htotal & _).
  rewrite Hwrap in Htotal. rewrite Htotal. split.
  - intros Hge Hp.
    destruct (Z.eq_dec (total_bytes_written custom + len) (capacity custom))
      as [Heq|Hne].
    + rewrite Hkeep by lia. assumption.
    + apply (next_power_from_unique (total_bytes_written custom + len)).
      * apply next_power_from_self. assumption.
      * apply Hgrow. lia.
  - intros Hlt. rewrite Hkeep by lia. assumption.
Qed.

(** C10 at the write that fills a new handle's 16 bytes: the call
    returns with [total_bytes_written] = [capacity] = 16, so the
    terminator's index is not below the capacity, and the stores have left
    the 16-byte allocation. *)
Theorem custom_write_terminator_at_capacity (fresh fresh0 : nat -> ascii) :
  custom_write 32 fresh (initial_payload fresh0) "0123456789abcdef" 16
  = Some (mkCustom 16 16 None, 16, "[16] 0123456789abcdef") /\
  ~ total_bytes_written (mkCustom 16 16 None) < capacity (mkCustom 16 16 None).
Proof.
  split; [reflexivity | simpl; lia].
Qed.

(** ** The text in the buffer *)

Lemma find_nul_text (text rest : list ascii) :
  ~ In NUL text -> find_nul (text ++ NUL :: rest) = Some (List.length text).
Proof.
  induction text as [|c text IH]; intros Hno; simpl.
  - reflexivity.
  - destruct (Ascii.eqb_spec c NUL) as [->|_].
    + exfalso. apply Hno. left. reflexivity.
    + rewrite IH; [reflexivity|]. intros Hin. apply Hno. right. assumption.
Qed.

Lemma c_str_no_nul (s : string) : ~ In NUL (list_ascii_of_string (c_str s)).
Proof.
  induction s as [|c s IH]; simpl; [tauto|].
  destruct (Ascii.eqb_spec c NUL) as [->|Hc]; simpl; [tauto|].
  intros [H | H]; [congruence | contradiction].
Qed.

Lemma In_firstn (A : Type) (x : A) (n : nat) (l : list A) :
  In x (firstn n l) -> In x l.
Proof.
  intros H. rewrite <- (firstn_skipn n l). apply in_or_app. left. assumption.
Qed.

Lemma list_ascii_of_string_length (s : string) :
  List.length (list_ascii_of_string s) = String.length s.
Proof.
  induction s as [|c s IH]; simpl; [reflexivity | rewrite IH; reflexivity].
Qed.

Lemma strncat_source_no_nul (src : string) (n : Z) :
  ~ In NUL (strncat_source src n).
Proof.
  unfold strncat_source. destruct (n <? 0).
  - apply c_str_no_nul.
  - intros Hin. apply In_firstn in Hin. revert Hin. apply c_str_no_nul.
Qed.

Lemma strncat_source_length (src : string) (n : Z) :
  0 <= n -> Z.of_nat (List.length (strncat_source src n)) <= n.
Proof.
  intros Hn. unfold strncat_source.
  destruct (Z.ltb_spec n 0) as [|_]; [lia|].
  rewrite length_firstn. lia.
Qed.

(** Copying behind a terminated text, with room for the new terminator. *)
Lemma write_at_text (text rest src : list ascii) :
  (List.length src <= List.length rest)%nat ->
  write_at (text ++ NUL :: rest) (List.length text) (src ++ [NUL])
  = Some ((text ++ src) ++ NUL :: skipn (List.length src) rest).
Proof.
  intros Hroom. unfold write_at.
  rewrite !length_app. simpl List.length.
  destruct (Nat.leb_spec (List.length text + (List.length src + 1))
              (List.length text + S (List.length rest))) as [_|]; [|lia].
  f_equal.
  rewrite firstn_app, firstn_all, Nat.sub_diag. simpl firstn.
  rewrite app_nil_r, <- !app_assoc. f_equal. f_equal. simpl.
  rewrite skipn_app.
  rewrite skipn_all2 by lia. simpl.
  replace (List.length text + (List.length src + 1) - List.length text)%nat
    with (S (List.length src)) by lia.
  reflexivity.
Qed.

(** Storing a NUL at or behind the terminator of a text leaves the text
    as it is. *)
Lemma store_behind_text (text rest : list ascii) (i : Z) :
  Z.of_nat (List.length text) <= i ->
  i < Z.of_nat (List.length (text ++ NUL :: rest)) ->
  exists rest',
    store (Some (text ++ NUL :: rest)) i NUL = Some (text ++ NUL :: rest') /\
    List.length rest' = List.length rest.
Proof.
  intros Hlo Hhi. unfold store.
  destruct (Z.leb_spec 0 i) as [_|]; [|lia].
  destruct (Z.ltb_spec i (Z.of_nat (List.length (text ++ NUL :: rest)))) as [_|]; [|lia].
  simpl andb. cbv iota. unfold write_at.
  rewrite length_app in Hhi. simpl List.length in Hhi.
  change (List.length [NUL]) with 1%nat.
  destruct (Nat.leb_spec (Z.to_nat i + 1) (List.length (text ++ NUL :: rest)))
    as [_|Hbad]; [|rewrite length_app in Hbad; simpl in Hbad; lia].
  set (j := (Z.to_nat i - List.length text)%nat).
  assert (Hi : Z.to_nat i = (List.length text + j)%nat) by (unfold j; lia).
  rewrite Hi.
  rewrite firstn_app_2, skipn_app, skipn_all2 by lia.
  replace (List.length text + j + 1 - List.length text)%nat with (S j) by lia.
  assert (Hj : (j <= List.length rest)%nat) by lia.
  clearbody j. clear Hi.
  destruct j as [|j].
  - exists rest. simpl. rewrite app_nil_r. auto.
  - exists (firstn j rest ++ NUL :: skipn (S j) rest). split.
    + simpl. rewrite <- app_assoc. simpl. reflexivity.
    + rewrite length_app. simpl List.length.
      rewrite length_firstn.
      pose proof (length_skipn (S j) rest) as Hskip. simpl skipn in *.
      destruct rest as [|c rest]; simpl in *; lia.
Qed.

(** [realloc] to a size that is not smaller keeps a terminated text. *)
Lemma realloc_text (text rest : list ascii) (n : Z) (fresh : nat -> ascii) :
  Z.of_nat (List.length (text ++ NUL :: rest)) <= n ->
  exists rest',
    realloc (Some (text ++ NUL :: rest)) n fresh = Some (text ++ NUL :: rest') /\
    Z.of_nat (List.length (text ++ NUL :: rest')) = n.
Proof.
  intros Hn. unfold realloc.
  rewrite firstn_all2 by lia.
  exists (rest ++ map fresh (seq (List.length (text ++ NUL :: rest))
                              (Z.to_nat n - List.length (text ++ NUL :: rest)))).
  split.
  - rewrite <- app_assoc. reflexivity.
  - rewrite !length_app in *. simpl List.length in *.
    rewrite length_app, length_map, length_seq. lia.
Qed.

(** Lines 143 and 144 of [examples/ffi/main.c] on a block that holds a
    terminated text and has room for the new terminator. *)
Lemma append_and_terminate (text rest : list ascii) (data : string)
    (total len : Z) :
  ~ In NUL text -> Z.of_nat (List.length text) <= total -> 0 <= len ->
  total + len < Z.of_nat (List.length (text ++ NUL :: rest)) ->
  exists rest',
    store (strncat (Some (text ++ NUL :: rest)) data len) (total + len) NUL
    = Some ((text ++ strncat_source data len) ++ NUL :: rest') /\
    List.length ((text ++ strncat_source data len) ++ NUL :: rest')
    = List.length (text ++ NUL :: rest).
Proof.
  intros Hno Htext Hlen Hroom.
  pose proof (strncat_source_length data len Hlen) as Hsrc.
  assert (Hfit : (List.length (strncat_source data len) <= List.length rest)%nat).
  { rewrite length_app in Hroom. simpl List.length in Hroom. lia. }
  unfold strncat. rewrite find_nul_text by assumption.
  rewrite write_at_text by assumption.
  set (src := strncat_source data len) in *.
  set (rest1 := skipn (List.length src) rest).
  assert (Hsame : List.length ((text ++ src) ++ NUL :: rest1)
                  = List.length (text ++ NUL :: rest)).
  { unfold rest1. rewrite !length_app. simpl List.length.
    rewrite length_skipn. lia. }
  destruct (store_behind_text (text ++ src) rest1 (total + len))
    as (rest' & Hstore & Hrest').
  - rewrite length_app. lia.
  - rewrite Hsame. assumption.
  - exists rest'. split; [assumption|].
    rewrite <- Hsame. rewrite !length_app. simpl List.length. lia.
Qed.

Lemma initial_payload_text (fresh : nat -> ascii) :
  holds_text (initial_payload fresh) [].
Proof.
  exists (map fresh (seq 1 15)). repeat split; simpl; tauto || lia.
Qed.

(** A write that leaves the accumulated size below the capacity it ends
    with appends to the buffered text what [strncat] copies of the data,
    and all its stores are inside the allocation. *)
Lemma custom_write_appends fuel fresh custom data len text :
  reachable custom -> holds_text custom text ->
  (32 <= fuel)%nat -> 0 <= len ->
  total_bytes_written custom + len <= MAX_SIZE ->
  (total_bytes_written custom + len < capacity custom \/
   ~ is_power_of_two (total_bytes_written custom + len)) ->
  exists custom' printed,
    custom_write fuel fresh custom data len = Some (custom', len, printed) /\
    holds_text custom' (text ++ strncat_source data len) /\
    total_bytes_written custom' < capacity custom'.
Proof.
  intros Hreach (rest & Hbuf & Hsize & Hno & Htext) Hfuel Hlen Hmax Hroom.
  destruct (reachable_fields custom Hreach) as (Hrange & Hcap & Hpow).
  assert (Hwrap : wrap (total_bytes_written custom + len) =
                  total_bytes_written custom + len).
  { apply wrap_in_range. unfold in_range, INT_MIN, INT_MAX, MAX_SIZE in *.
    change (2 ^ 31) with (2 * 2 ^ 30). lia. }
  assert (Hno' : ~ In NUL (text ++ strncat_source data len)).
  { intros Hin. apply in_app_or in Hin. destruct Hin as [Hin | Hin];
      [contradiction | revert Hin; apply strncat_source_no_nul]. }
  assert (Htext' : Z.of_nat (List.length (text ++ strncat_source data len))
                   <= total_bytes_written custom + len).
  { rewrite length_app. pose proof (strncat_source_length data len Hlen). lia. }
  unfold custom_write. rewrite Hwrap, Z.geb_leb, Hbuf.
  destruct (Z.leb_spec (capacity custom) (total_bytes_written custom + len))
    as [Hge|Hlt].
  - unfold MAX_SIZE in Hmax.
    destruct (next_power_of_two_returns fuel _ Hfuel Hmax)
      as (k & Hk & Hvk & Hmin & Hrun).
    rewrite Hrun.
    assert (Hbelow : total_bytes_written custom + len < 2 ^ k).
    { destruct Hroom as [Hroom | Hroom]; [lia|].
      destruct (Z.eq_dec (total_bytes_written custom + len) (2 ^ k)) as [Heq|Hne];
        [|lia].
      exfalso. apply Hroom. exists k. split; [lia | assumption]. }
    destruct (realloc_text text rest (2 ^ k) fresh) as (rest1 & Hrealloc & Hsize1);
      [lia|].
    rewrite Hrealloc.
    destruct (append_and_terminate text rest1 data (total_bytes_written custom) len)
      as (rest' & Hstore & Hsame); try assumption; [lia|].
    rewrite Hstore. eexists. eexists. split; [reflexivity|]. split.
    + exists rest'. simpl. repeat split; try assumption.
      rewrite Hsame. assumption.
    + simpl. assumption.
  - destruct (append_and_terminate text rest data (total_bytes_written custom) len)
      as (rest' & Hstore & Hsame); try assumption; [lia|].
    rewrite Hstore. eexists. eexists. split; [reflexivity|]. split.
    + exists rest'. simpl. repeat split; try assumption.
      rewrite Hsame. assumption.
    + simpl. assumption.
Qed.

(** A flush of a buffer that holds a terminated text prints that text
    between the markers, returns 0 and resets the counter and the
    capacity; the text it leaves behind is empty when the fresh block
    starts with a NUL. *)
Lemma custom_flush_prints_text fresh custom text :
  holds_text custom text ->
  exists custom',
    custom_flush fresh custom
    = (custom', 0,
       Some (BEGIN_FLUSH ++ string_of_list_ascii text ++ END_FLUSH)%string) /\
    total_bytes_written custom' = 0 /\ capacity custom' = 16 /\
    (fresh O = NUL -> holds_text custom' []).
Proof.
  intros (rest & Hbuf & Hsize & Hno & Htext).
  rewrite custom_flush_fields. eexists. split; [|split; [|split]].
  - unfold read_string. rewrite Hbuf, find_nul_text by assumption.
    rewrite firstn_app, firstn_all, Nat.sub_diag. simpl firstn.
    rewrite app_nil_r. reflexivity.
  - reflexivity.
  - reflexivity.
  - intros Hzero. exists (map fresh (seq 1 15)).
    unfold malloc. change (Z.to_nat 16) with 16%nat.
    cbn [buffer capacity total_bytes_written seq map app List.length].
    rewrite Hzero.
    split; [reflexivity|]. split; [reflexivity|]. split; [tauto|lia].
Qed.

(** ** [custom_flush] on a block left as allocated *)

(** A flush whose fresh block happens to start with a NUL leaves an empty
    text behind. *)
Lemma custom_flush_zeroed fresh custom :
  fresh O = NUL ->
  read_string (buffer (fst (fst (custom_flush fresh custom)))) = Some EmptyString.
Proof.
  intros H. rewrite custom_flush_fields. simpl. rewrite H. reflexivity.
Qed.

(** C5 on a handle that took the two bytes ["ab"]: the first flush
    prints them between the markers and returns 0 with the capacity back at
    16, but the block it allocates is left as the allocator gave it; with
    stale bytes ['X'], ['Y'] there, the buffered text is ["XY"], a second
    flush prints ["XY"], and so does a flush after writing ["cd"]. *)
Theorem custom_flush_keeps_stale_bytes :
  exists custom1 custom2 custom3,
    custom_write 32 zeroed (initial_payload zeroed) "ab" 2
    = Some (custom1, 2, "[2] ab") /\
    custom_flush stale custom1
    = (custom2, 0, Some "[BEGIN FLUSH]ab[END FLUSH]") /\
    total_bytes_written custom2 = 0 /\ capacity custom2 = 16 /\
    read_string (buffer custom2) = Some "XY" /\
    snd (custom_flush zeroed custom2) = Some "[BEGIN FLUSH]XY[END FLUSH]" /\
    custom_write 32 zeroed custom2 "cd" 2 = Some (custom3, 2, "[2] cd") /\
    snd (custom_flush zeroed custom3) = Some "[BEGIN FLUSH]XY[END FLUSH]".
Proof.
  eexists. eexists. eexists.
  split; [reflexivity|]. split; [reflexivity|].
  repeat split; reflexivity.
Qed.

(** ** Results of a write *)

(** The custom variant keeps the write contract: when [custom_write]
    returns, it returns the length it was given. *)
Lemma custom_table_contract fuel fresh : write_contract (custom_table fuel fresh).
Proof.
  intros custom custom' data len r Hlen. simpl.
  destruct (custom_write fuel fresh custom data len) as [[[c r'] printed]|] eqn:Hrun;
    [|discriminate].
  intros H. injection H as _ <-.
  apply custom_write_fields in Hrun. destruct Hrun as (-> & _). lia.
Qed.





(** ** The builder *)

Lemma round_up_multiple (n a : Z) : (a | round_up n a).
Proof. unfold round_up. apply Z.divide_factor_r. Qed.

Lemma round_up_lower (n a : Z) : 0 < a -> n <= round_up n a.
Proof.
  intros Ha. unfold round_up.
  pose proof (Z.div_mod (n + a - 1) a ltac:(lia)) as Hdiv.
  pose proof (Z.mod_pos_bound (n + a - 1) a Ha) as Hmod.
  nia.
Qed.

Lemma pow2_divide (i j : Z) : 0 <= i <= j -> (2 ^ i | 2 ^ j).
Proof.
  intros H. exists (2 ^ (j - i)).
  rewrite <- Z.pow_add_r by lia. f_equal. lia.
Qed.

(** A power of two divides the larger of itself and another power of
    two. *)
Lemma power_of_two_divides_max (a b : Z) :
  is_power_of_two a -> is_power_of_two b -> (a | Z.max b a).
Proof.
  intros (i & Hi & ->) (j & Hj & ->).
  destruct (Z_le_gt_dec i j) as [Hle|Hgt].
  - rewrite Z.max_l by (apply pow2_le; lia). apply pow2_divide. lia.
  - rewrite Z.max_r by (apply pow2_le; lia). apply Z.divide_refl.
Qed.

(** C1, as the design has it: when the allocation is satisfied, with a
    block that is non-null and aligned as requested, the payload pointer
    the builder returns is non-null, is a multiple of [payload_alignment]
    and leaves room for the dispatch bookkeeping in front of it; and
    [custom_file_handle] then initialises its payload through
    [builder.place]. *)
Theorem builder_place_aligned
    (header_size header_align : Z) (alloc : Z -> Z -> option Z)
    (payload_size payload_alignment : Z) (destroy write flush : fn_ref)
    (base : Z) :
  0 <= header_size -> is_power_of_two header_align ->
  0 <= payload_size -> is_power_of_two payload_alignment ->
  destroy <> NullFn -> write <> NullFn -> flush <> NullFn ->
  alloc (payload_offset header_size payload_alignment + payload_size)
        (Z.max header_align payload_alignment) = Some base ->
  0 < base -> (Z.max header_align payload_alignment | base) ->
  let built := new_file_handle_builder header_size header_align alloc
                 payload_size payload_alignment destroy write flush in
  place (fst built) <> 0 /\
  place (fst built) mod payload_alignment = 0 /\
  file_handle (fst built) = base /\
  base + header_size <= place (fst built) /\
  snd built = Some (mkHeader destroy write flush) /\
  (payload_size = sizeof_CustomFileHandle ->
   payload_alignment = alignof_CustomFileHandle ->
   forall fresh,
     custom_file_handle header_size header_align alloc fresh
     = Some (base, initial_payload fresh)).
Proof.
  intros Hhs Hha Hps Hpa _ _ _ Halloc Hbase Haligned built.
  pose proof (is_power_of_two_pos _ Hpa) as Hpos.
  pose proof (round_up_lower header_size payload_alignment ltac:(lia)) as Hlow.
  assert (Hplace : place (fst built) = base + payload_offset header_size payload_alignment).
  { unfold built, new_file_handle_builder. rewrite Halloc. reflexivity. }
  assert (Hnonnull : place (fst built) <> 0).
  { rewrite Hplace. unfold payload_offset. lia. }
  split; [assumption|]. split; [|split; [|split; [|split]]].
  - rewrite Hplace. apply Z.mod_divide; [lia|].
    apply Z.divide_add_r.
    + apply Z.divide_trans with (Z.max header_align payload_alignment);
        [apply power_of_two_divides_max; assumption | assumption].
    + apply round_up_multiple.
  - unfold built, new_file_handle_builder. rewrite Halloc. reflexivity.
  - rewrite Hplace. unfold payload_offset. lia.
  - unfold built, new_file_handle_builder. rewrite Halloc. reflexivity.
  - intros Hsize Halign fresh. unfold custom_file_handle.
    rewrite <- Hsize, <- Halign.
    unfold new_file_handle_builder. rewrite Halloc. cbn [fst place file_handle].
    destruct (Z.eqb_spec (base + payload_offset header_size payload_alignment) 0)
      as [Heq|_]; [|reflexivity].
    rewrite Hplace in Hnonnull. contradiction.
Qed.

(** The theorem at the request [custom_file_handle] makes, with a 24-byte
    bookkeeping header aligned to 8 and an allocator that hands out the
    block at address 4096. *)
Lemma builder_place_aligned_custom :
  let built := new_file_handle_builder 24 8 block_at_4096 16 8
                 (Fn "custom_destroy") (Fn "custom_write") (Fn "custom_flush") in
  place (fst built) <> 0 /\
  place (fst built) mod 8 = 0 /\
  file_handle (fst built) = 4096 /\
  4096 + 24 <= place (fst built) /\
  snd built = Some (mkHeader (Fn "custom_destroy") (Fn "custom_write")
                             (Fn "custom_flush")) /\
  (16 = sizeof_CustomFileHandle -> 8 = alignof_CustomFileHandle ->
   forall fresh,
     custom_file_handle 24 8 block_at_4096 fresh
     = Some (4096, initial_payload fresh)).
Proof.
  apply (builder_place_aligned 24 8 block_at_4096 16 8
           (Fn "custom_destroy") (Fn "custom_write") (Fn "custom_flush") 4096).
  - lia.
  - exists 3. split; [lia | reflexivity].
  - lia.
  - exists 3. split; [lia | reflexivity].
  - discriminate.
  - discriminate.
  - discriminate.
  - reflexivity.
  - lia.
  - exists 512. reflexivity.
Defined.

(** C1 as stated fails when the allocation cannot be satisfied: the
    builder then returns a null payload pointer, and the stores with which
    [custom_file_handle] initialises its payload go through it. *)
Lemma builder_place_null_without_memory :
  place (fst (new_file_handle_builder 24 8 out_of_memory
                sizeof_CustomFileHandle alignof_CustomFileHandle
                (Fn "custom_destroy") (Fn "custom_write") (Fn "custom_flush")))
  = 0 /\
  custom_file_handle 24 8 out_of_memory zeroed = None.
Proof. split; reflexivity. Qed.

(** ** The two programs *)

Lemma strcmp_zero (a b : string) : strcmp a b = 0 <-> c_str a = c_str b.
Proof.
  unfold strcmp. split.
  - destruct (String.compare (c_str a) (c_str b)) eqn:Hcmp; try discriminate.
    intros _. apply String.compare_eq_iff. assumption.
  - intros ->. pose proof (String.compare_antisym (c_str b) (c_str b)) as H.
    destruct (String.compare (c_str b) (c_str b)); [reflexivity | discriminate H ..].
Qed.

(** What the argument loop of the ffi program computes: [custom] ends up
    set exactly when some argument is ["-c"] or is anything but
    ["--custom"]. *)
Lemma ffi_args_custom (args : list string) :
  forall (custom result : bool),
    ffi_args args custom = Some result ->
    (result = true <->
     custom = true \/
     exists arg, In arg args /\
                 (c_str arg = "-c" \/ c_str arg <> "--custom")).
Proof.
  induction args as [|arg rest IH]; intros custom result Hrun; simpl in Hrun.
  - injection Hrun as <-. split; [auto|].
    intros [H | (arg & [] & _)]. assumption.
  - destruct (is_help arg); [discriminate|].
    destruct ((strcmp arg "-c" =? 0) || negb (strcmp arg "--custom" =? 0)) eqn:Hflag.
    + apply IH in Hrun. split.
      * intros _. right. exists arg. split; [left; reflexivity|].
        apply orb_true_iff in Hflag. destruct Hflag as [Hc | Hn].
        -- left. apply Z.eqb_eq in Hc. apply strcmp_zero in Hc. exact Hc.
        -- right. apply negb_true_iff, Z.eqb_neq in Hn.
           intros Heq. apply Hn. apply strcmp_zero. exact Heq.
      * intros _. apply Hrun. left. reflexivity.
    + apply IH in Hrun. rewrite Hrun.
      apply orb_false_iff in Hflag. destruct Hflag as [Hc Hn].
      apply Z.eqb_neq in Hc. apply negb_false_iff, Z.eqb_eq in Hn.
      split.
      * intros [H | (arg' & Hin & Harg)]; [left; assumption|].
        right. exists arg'. split; [right; assumption | assumption].
      * intros [H | (arg' & [<- | Hin] & Harg)]; [left; assumption | |].
        -- exfalso. destruct Harg as [Harg | Harg].
           ++ apply Hc. apply strcmp_zero. exact Harg.
           ++ apply Harg. apply strcmp_zero in Hn. exact Hn.
        -- right. exists arg'. split; assumption.
Qed.

(** C7 at two command lines.  With the single argument ["out.txt"] no
    argument is ["-c"] or ["--custom"], and the program builds the custom
    handle and never opens the path.  With the single argument
    ["--custom"] the program does not build the custom handle; it opens a
    file of that name. *)
Theorem ffi_main_custom_flag :
  sink_ffi_main 0 ["main"; "out.txt"] []
  = (0, [NewCustom; WriteCall greeting 13 13; DestroyCall]) /\
  sink_ffi_main 0 ["main"; "--custom"] []
  = (0, [NewFromPath "--custom"; WriteCall greeting 13 13; DestroyCall]).
Proof. split; reflexivity. Qed.

(** *** Destroying the handle *)

Section Destroy.

Variable FileHandle : Type.
Variable new_file_handle_from_path : string -> option FileHandle.
Variable new_stdout_file_handle : option FileHandle.
Variable custom_file_handle : option FileHandle.
Variable file_handle_write : FileHandle -> string -> Z -> FileHandle * Z.
Variable file_handle_flush : FileHandle -> FileHandle * Z.

Lemma destroy_count_emit e rest :
  destroy_count (snd (emit e rest)) =
  ((if is_destroy e then 1 else 0) + destroy_count (snd rest))%nat.
Proof. unfold destroy_count, emit. simpl. destruct (is_destroy e); reflexivity. Qed.

(** The copy loop of [example/main.c] ends every run with its one
    destroy. *)
Lemma example_copy_destroys_once (stdin : list string) :
  forall handle,
    let t := snd (example_copy FileHandle file_handle_write handle stdin) in
    destroy_count t = 1%nat /\ no_use_after_destroy t = true.
Proof.
  induction stdin as [|buffer rest IH]; intros handle; simpl.
  - split; reflexivity.
  - destruct (file_handle_write handle buffer (strlen buffer)) as [handle' r].
    destruct (r <? 0).
    + split; reflexivity.
    + destruct (IH handle') as [Hcount Horder].
      rewrite destroy_count_emit. simpl. split; assumption.
Qed.

(** X17: a run of [example/main.c] that got a handle and used it
    destroys it exactly once, and does nothing with it afterwards. *)
Lemma example_main_destroys_once (argv stdin : list string) :
  let t := snd (example_main FileHandle new_file_handle_from_path
                  new_stdout_file_handle file_handle_write argv stdin) in
  existsb uses_handle t = true ->
  destroy_count t = 1%nat /\ no_use_after_destroy t = true.
Proof.
  unfold example_main.
  destruct (example_args (tl argv)); [simpl; discriminate|].
  destruct (nth_error argv 1) as [path|].
  - destruct (new_file_handle_from_path path) as [handle|]; [|simpl; discriminate].
    intros _. unfold greet_then.
    destruct (file_handle_write handle greeting (strlen greeting)) as [handle' r].
    destruct (negb (r =? strlen greeting)); [split; reflexivity|].
    destruct (example_copy_destroys_once stdin handle') as [Hcount Horder].
    rewrite !destroy_count_emit. simpl. split; assumption.
  - destruct new_stdout_file_handle as [handle|]; [|simpl; discriminate].
    intros _. unfold greet_then.
    destruct (file_handle_write handle greeting (strlen greeting)) as [handle' r].
    destruct (negb (r =? strlen greeting)); [split; reflexivity|].
    destruct (example_copy_destroys_once stdin handle') as [Hcount Horder].
    rewrite !destroy_count_emit. simpl. split; assumption.
Qed.

(** The copy loop of [examples/ffi/main.c] destroys the handle once,
    except on the path that reports a failed flush, which returns without
    a destroy. *)
Lemma ffi_copy_destroy (stdin : list string) :
  forall handle,
    let t := snd (ffi_copy FileHandle file_handle_write file_handle_flush
                    handle stdin) in
    no_use_after_destroy t = true /\
    ((destroy_count t = 1%nat /\ ~ In (Perror flush_failed) t) \/
     (destroy_count t = 0%nat /\ In (Perror flush_failed) t)).
Proof.
  induction stdin as [|buffer rest IH]; intros handle; simpl.
  - split; [reflexivity|]. left. split; [reflexivity|].
    intros [H | []]. discriminate.
  - destruct (file_handle_write handle buffer (strlen buffer)) as [handle' r].
    destruct (r <? 0).
    + split; [reflexivity|]. left. split; [reflexivity|].
      simpl. intros [H | [H | [H | []]]]; discriminate.
    + destruct (strstr buffer "flush").
      * destruct (file_handle_flush handle') as [handle'' ret].
        destruct (negb (ret =? 0)).
        -- split; [reflexivity|]. right. split; [reflexivity|].
           simpl. auto.
        -- destruct (IH handle'') as [Horder Hcount].
           rewrite !destroy_count_emit. simpl. split; [assumption|].
           destruct Hcount as [[Hone Hno] | [Hzero Hyes]].
           ++ left. split; [assumption|].
              intros [H | [H | H]]; [discriminate .. | contradiction].
           ++ right. split; [assumption | auto].
      * destruct (IH handle') as [Horder Hcount].
        rewrite !destroy_count_emit. simpl. split; [assumption|].
        destruct Hcount as [[Hone Hno] | [Hzero Hyes]].
        -- left. split; [assumption|].
           intros [H | H]; [discriminate | contradiction].
        -- right. split; [assumption | auto].
Qed.

(** X18: a run of [examples/ffi/main.c] that got a handle and used it
    never uses it after a destroy; it destroys it exactly once when it
    does not leave through the failed-flush path, and not at all when it
    does. *)
Lemma ffi_main_destroy (argv stdin : list string) :
  let t := snd (ffi_main FileHandle new_file_handle_from_path
                  new_stdout_file_handle custom_file_handle
                  file_handle_write file_handle_flush argv stdin) in
  existsb uses_handle t = true ->
  no_use_after_destroy t = true /\
  ((destroy_count t = 1%nat /\ ~ In (Perror flush_failed) t) \/
   (destroy_count t = 0%nat /\ In (Perror flush_failed) t)).
Proof.
  unfold ffi_main.
  destruct (ffi_args (tl argv) false) as [custom|]; [|simpl; discriminate].
  assert (Hgreet : forall handle constructed,
             is_destroy constructed = false ->
             uses_handle constructed = false ->
             constructed <> Perror flush_failed ->
             let t := snd (emit constructed
                             (greet_then FileHandle file_handle_write
                                (ffi_copy FileHandle file_handle_write
                                   file_handle_flush) handle stdin)) in
             no_use_after_destroy t = true /\
             ((destroy_count t = 1%nat /\ ~ In (Perror flush_failed) t) \/
              (destroy_count t = 0%nat /\ In (Perror flush_failed) t))).
  { intros handle constructed Hnd Hnu Hnp. unfold greet_then.
    destruct (file_handle_write handle greeting (strlen greeting)) as [handle' r].
    destruct (negb (r =? strlen greeting)).
    - unfold destroy_count. simpl. rewrite Hnd. simpl.
      split; [reflexivity|]. left. split; [reflexivity|].
      intros [H | [H | [H | [H | []]]]];
        [contradiction | discriminate ..].
    - destruct (ffi_copy_destroy stdin handle') as [Horder Hcount].
      rewrite !destroy_count_emit. rewrite Hnd. simpl. rewrite Hnd. simpl.
      split; [assumption|].
      destruct Hcount as [[Hone Hno] | [Hzero Hyes]].
      + left. split; [assumption|].
        intros [H | [H | H]]; [contradiction | discriminate | contradiction].
      + right. split; [assumption | auto]. }
  destruct custom.
  - destruct custom_file_handle as [handle|]; [|simpl; discriminate].
    intros _. apply Hgreet; [reflexivity .. | discriminate].
  - destruct (nth_error argv 1) as [path|].
    + destruct (new_file_handle_from_path path) as [handle|]; [|simpl; discriminate].
      intros _. apply Hgreet; [reflexivity .. | discriminate].
    + destruct new_stdout_file_handle as [handle|]; [|simpl; discriminate].
      intros _. apply Hgreet; [reflexivity .. | discriminate].
Qed.

End Destroy.

(** C6 at a run of the ffi program: no arguments, so the handle is the
    one for standard output; the line ["flush"] on standard input; and a
    flush that reports status 5.  The program returns 5 from inside the
    loop, and [file_handle_destroy] is not called on the handle it
    constructed and wrote to. *)
Theorem ffi_main_failed_flush_skips_destroy :
  sink_ffi_main 5 ["main"] [("flush" ++ newline)%string]
  = (5, [NewStdout; WriteCall greeting 13 13;
         WriteCall ("flush" ++ newline)%string 6 6; FlushCall 5;
         Perror flush_failed]) /\
  destroy_count (snd (sink_ffi_main 5 ["main"] [("flush" ++ newline)%string]))
  = 0%nat.
Proof. split; reflexivity. Qed.

(** *** The copy loops and the results of their writes *)

Section CopyLoops.

Variable FileHandle : Type.
Variable write : FileHandle -> string -> Z -> FileHandle * Z.
Variable flush : FileHandle -> FileHandle * Z.

Lemma written_buffers_emit_write data len r rest :
  written_buffers (snd (emit (WriteCall data len r) rest)) =
  (data, len) :: written_buffers (snd rest).
Proof. reflexivity. Qed.

Lemma write_results_emit_write data len r rest :
  write_results (snd (emit (WriteCall data len r) rest)) =
  r :: write_results (snd rest).
Proof. reflexivity. Qed.

Lemma negative_result_cons (r : Z) (results : list Z) :
  0 <= r ->
  ((exists r', In r' (r :: results) /\ r' < 0) <->
   (exists r', In r' results /\ r' < 0)).
Proof.
  intros Hr. split.
  - intros (r' & [<- | Hin] & Hneg); [lia | eauto].
  - intros (r' & Hin & Hneg). exists r'. simpl. auto.
Qed.

(** The loop of [example/main.c]. *)
Lemma example_copy_results (stdin : list string) :
  forall handle,
    let run := example_copy FileHandle write handle stdin in
    (In (Perror copy_failed) (snd run) <->
     exists r, In r (write_results (snd run)) /\ r < 0) /\
    (fst run = 1 <-> exists r, In r (write_results (snd run)) /\ r < 0) /\
    (exists n, written_buffers (snd run) = map whole_buffer (firstn n stdin)) /\
    ((forall r, In r (write_results (snd run)) -> 0 <= r) ->
     written_buffers (snd run) = map whole_buffer stdin).
Proof.
  induction stdin as [|buffer rest IH]; intros handle; simpl.
  - repeat split.
    + intros [H | []]. discriminate.
    + intros (r & [] & _).
    + discriminate.
    + intros (r & [] & _).
    + exists O. reflexivity.
  - destruct (write handle buffer (strlen buffer)) as [handle' r].
    destruct (Z.ltb_spec r 0) as [Hneg|Hpos].
    + repeat split.
      * intros _. exists r. simpl. auto.
      * intros _. simpl. auto.
      * intros _. exists r. simpl. auto.
      * exists 1%nat. reflexivity.
      * intros Hall. specialize (Hall r (or_introl eq_refl)). lia.
    + destruct (IH handle') as (Hperror & Hexit & [n Hprefix] & Hall).
      rewrite written_buffers_emit_write, write_results_emit_write.
      rewrite (negative_result_cons r _ Hpos).
      repeat split.
      * intros [H | H]; [discriminate | apply Hperror; assumption].
      * intros H. right. apply Hperror. assumption.
      * apply Hexit.
      * apply Hexit.
      * exists (S n). simpl. rewrite Hprefix. reflexivity.
      * intros Hnonneg. unfold whole_buffer at 1. f_equal.
        apply Hall. intros r' Hin. apply Hnonneg. right. assumption.
Qed.

(** The loop of [examples/ffi/main.c]. *)
Lemma ffi_copy_results (stdin : list string) :
  forall handle,
    let run := ffi_copy FileHandle write flush handle stdin in
    (In (Perror copy_failed) (snd run) <->
     exists r, In r (write_results (snd run)) /\ r < 0) /\
    (In (Perror copy_failed) (snd run) -> fst run = 1) /\
    (exists n, written_buffers (snd run) = map whole_buffer (firstn n stdin)) /\
    ((forall r, In r (write_results (snd run)) -> 0 <= r) ->
     written_buffers (snd run) = map whole_buffer stdin \/
     In (Perror flush_failed) (snd run)).
Proof.
  induction stdin as [|buffer rest IH]; intros handle; simpl.
  - repeat split.
    + intros [H | []]. discriminate.
    + intros (r & [] & _).
    + intros [H | []]. discriminate.
    + exists O. reflexivity.
    + intros _. left. reflexivity.
  - destruct (write handle buffer (strlen buffer)) as [handle' r].
    destruct (Z.ltb_spec r 0) as [Hneg|Hpos].
    + repeat split.
      * intros _. exists r. simpl. auto.
      * intros _. simpl. auto.
      * exists 1%nat. reflexivity.
      * intros Hall. specialize (Hall r (or_introl eq_refl)). lia.
    + destruct (strstr buffer "flush").
      * destruct (flush handle') as [handle'' ret].
        destruct (negb (ret =? 0)).
        -- repeat split.
           ++ intros [H | [H | [H | []]]]; discriminate.
           ++ intros (r' & [<- | []] & Hr'). lia.
           ++ intros [H | [H | [H | []]]]; discriminate.
           ++ exists 1%nat. reflexivity.
           ++ intros _. right. simpl. auto.
        -- destruct (IH handle'') as (Hperror & Hexit & [n Hprefix] & Hall).
           rewrite written_buffers_emit_write, write_results_emit_write.
           rewrite (negative_result_cons r _ Hpos).
           repeat split.
           ++ intros [H | [H | H]]; [discriminate .. | apply Hperror; assumption].
           ++ intros H. right. right. apply Hperror. assumption.
           ++ intros [H | [H | H]]; [discriminate .. | apply Hexit; assumption].
           ++ exists (S n). simpl. rewrite Hprefix. reflexivity.
           ++ intros Hnonneg.
              destruct Hall as [Hall | Hall].
              ** intros r' Hin. apply Hnonneg. right. assumption.
              ** left. simpl. rewrite Hall. reflexivity.
              ** right. right. right. assumption.
      * destruct (IH handle') as (Hperror & Hexit & [n Hprefix] & Hall).
        rewrite written_buffers_emit_write, write_results_emit_write.
        rewrite (negative_result_cons r _ Hpos).
        repeat split.
        -- intros [H | H]; [discriminate | apply Hperror; assumption].
        -- intros H. right. apply Hperror. assumption.
        -- intros [H | H]; [discriminate | apply Hexit; assumption].
        -- exists (S n). simpl. rewrite Hprefix. reflexivity.
        -- intros Hnonneg.
           destruct Hall as [Hall | Hall].
           ++ intros r' Hin. apply Hnonneg. right. assumption.
           ++ left. simpl. rewrite Hall. reflexivity.
           ++ right. right. assumption.
Qed.

(** The writes the loop of [example/main.c] makes are the calls it is
    to make, up to the first refusal. *)
Lemma example_copy_calls (stdin : list string) :
  forall handle,
    write_calls (snd (example_copy FileHandle write handle stdin))
    = until_negative (write_each FileHandle write handle stdin).
Proof.
  induction stdin as [|buffer rest IH]; intros handle; simpl.
  - reflexivity.
  - destruct (write handle buffer (strlen buffer)) as [handle' r].
    simpl until_negative. destruct (r <? 0).
    + reflexivity.
    + simpl. rewrite IH. reflexivity.
Qed.

(** A run of the loop of [examples/ffi/main.c] starts with a write or
    with the destroy, never with a flush. *)
Lemma ffi_copy_head (stdin : list string) (handle : FileHandle) :
  match snd (ffi_copy FileHandle write flush handle stdin) with
  | FlushCall _ :: _ => False
  | _ => True
  end.
Proof.
  destruct stdin as [|buffer rest]; simpl; [exact I|].
  destruct (write handle buffer (strlen buffer)) as [handle' r].
  destruct (r <? 0); [exact I|].
  destruct (strstr buffer "flush"); [|exact I].
  destruct (flush handle') as [handle'' ret].
  destruct (negb (ret =? 0)); exact I.
Qed.

Lemma served_write data len r (t : list event) :
  match t with FlushCall _ :: _ => False | _ => True end ->
  served (WriteCall data len r :: t) = (data, len, r, None) :: served t.
Proof.
  destruct t as [|[ | | | | | | |] t]; simpl; tauto.
Qed.

(** The writes and flushes the loop of [examples/ffi/main.c] makes are
    the calls it is to make, up to the first failure. *)
Lemma ffi_copy_calls (stdin : list string) :
  forall handle,
    served (snd (ffi_copy FileHandle write flush handle stdin))
    = until_failure (serve_each FileHandle write flush handle stdin).
Proof.
  induction stdin as [|buffer rest IH]; intros handle; simpl.
  - reflexivity.
  - destruct (write handle buffer (strlen buffer)) as [handle' r].
    destruct (Z.ltb_spec r 0) as [Hneg|Hpos].
    + destruct (Z.leb_spec 0 r) as [|_]; [lia|]. simpl.
      destruct (Z.ltb_spec r 0) as [_|]; [reflexivity | lia].
    + destruct (Z.leb_spec 0 r) as [_|]; [|lia]. simpl andb.
      destruct (strstr buffer "flush").
      * destruct (flush handle') as [handle'' ret]. simpl until_failure.
        destruct (Z.ltb_spec r 0) as [|_]; [lia|].
        destruct (negb (ret =? 0)).
        -- reflexivity.
        -- simpl. rewrite IH. reflexivity.
      * simpl until_failure.
        destruct (Z.ltb_spec r 0) as [|_]; [lia|].
        change (snd (emit (WriteCall buffer (strlen buffer) r)
                       (ffi_copy FileHandle write flush handle' rest)))
          with (WriteCall buffer (strlen buffer) r
                :: snd (ffi_copy FileHandle write flush handle' rest)).
        rewrite served_write by apply ffi_copy_head.
        rewrite IH. reflexivity.
Qed.

End CopyLoops.

(** *** Through the mechanism *)

Section Through.

Variable P : Type.
Variable w : P -> string -> Z -> P * Z.
Variable f : P -> P * Z.
Variable d : P -> P.

(** Writes made through [file_handle_write] on a handle of a variant
    come to one call of the variant's write per buffer, each on the
    payload the call before left behind, with that call's result. *)
Lemma write_each_through (stdin : list string) :
  forall p,
    write_each Handle through_write (mkHandle P (total_table w f d) p) stdin
    = write_each P w p stdin.
Proof.
  induction stdin as [|buffer rest IH]; intros p; simpl.
  - reflexivity.
  - unfold through_write, file_handle_write. simpl.
    destruct (w p buffer (strlen buffer)) as [p' r].
    rewrite IH. reflexivity.
Qed.

Lemma serve_each_through (stdin : list string) :
  forall p,
    serve_each Handle through_write through_flush
      (mkHandle P (total_table w f d) p) stdin
    = serve_each P w f p stdin.
Proof.
  induction stdin as [|buffer rest IH]; intros p; simpl.
  - reflexivity.
  - unfold through_write, file_handle_write. simpl.
    destruct (w p buffer (strlen buffer)) as [p' r].
    destruct ((0 <=? r) && strstr buffer "flush").
    + unfold through_flush, file_handle_flush. simpl.
      destruct (f p') as [p'' ret]. rewrite IH. reflexivity.
    + rewrite IH. reflexivity.
Qed.

End Through.

(** C8: in the copy loop of either program the writes made are, call for
    call, one write of each buffer read from standard input, whole, on the
    handle the call before left, with the result the library's write
    returned, up to the first negative result (in [examples/ffi/main.c]
    also up to the first failed flush); the failure report for a write
    appears exactly when a write returned a negative result, and the
    program then exits with status 1; while the results are non-negative,
    short or not, the loop moves on to the next buffer, so that every
    buffer is handed over exactly once unless a flush fails; and through
    the mechanism these calls come to one call of the variant's own write
    per buffer, on the successive payloads, with its result handed
    back. *)
Theorem copy_loops_accept_nonnegative_results
    (FileHandle : Type)
    (write : FileHandle -> string -> Z -> FileHandle * Z)
    (flush : FileHandle -> FileHandle * Z)
    (handle : FileHandle) (stdin : list string)
    (P : Type) (w : P -> string -> Z -> P * Z) (f : P -> P * Z) (d : P -> P)
    (p : P) :
  let example := example_copy FileHandle write handle stdin in
  let ffi := ffi_copy FileHandle write flush handle stdin in
  let variant := mkHandle P (total_table w f d) p in
  ((In (Perror copy_failed) (snd example) <->
    exists r, In r (write_results (snd example)) /\ r < 0) /\
   (fst example = 1 <->
    exists r, In r (write_results (snd example)) /\ r < 0) /\
   (exists n, written_buffers (snd example) = map whole_buffer (firstn n stdin)) /\
   ((forall r, In r (write_results (snd example)) -> 0 <= r) ->
    written_buffers (snd example) = map whole_buffer stdin) /\
   write_calls (snd example)
   = until_negative (write_each FileHandle write handle stdin)) /\
  ((In (Perror copy_failed) (snd ffi) <->
    exists r, In r (write_results (snd ffi)) /\ r < 0) /\
   (In (Perror copy_failed) (snd ffi) -> fst ffi = 1) /\
   (exists n, written_buffers (snd ffi) = map whole_buffer (firstn n stdin)) /\
   ((forall r, In r (write_results (snd ffi)) -> 0 <= r) ->
    written_buffers (snd ffi) = map whole_buffer stdin \/
    In (Perror flush_failed) (snd ffi)) /\
   served (snd ffi)
   = until_failure (serve_each FileHandle write flush handle stdin)) /\
  (write_calls (snd (example_copy Handle through_write variant stdin))
   = until_negative (write_each P w p stdin) /\
   served (snd (ffi_copy Handle through_write through_flush variant stdin))
   = until_failure (serve_each P w f p stdin)).
Proof.
  intros example ffi variant. split; [|split].
  - pose proof (example_copy_results FileHandle write stdin handle)
      as (H1 & H2 & H3 & H4).
    repeat split; try (apply H1 || apply H2 || assumption).
    apply example_copy_calls.
  - pose proof (ffi_copy_results FileHandle write flush stdin handle)
      as (H1 & H2 & H3 & H4).
    repeat split; try (apply H1 || assumption).
    apply ffi_copy_calls.
  - split.
    + unfold variant. rewrite example_copy_calls, write_each_through. reflexivity.
    + unfold variant. rewrite ffi_copy_calls, serve_each_through. reflexivity.
Qed.

(** * Further properties of the sources *)

(** ** [next_power_of_two] on all of [int] *)

(** What the loop returns is never below the value. *)
Lemma next_power_of_two_loop_covers (fuel : nat) :
  forall power value p,
    next_power_of_two_loop fuel power value = Some p -> value <= p.
Proof.
  induction fuel as [|fuel IH]; intros power value p Hrun; [discriminate|].
  rewrite next_power_of_two_loop_step in Hrun.
  destruct (Z.ltb_spec power value) as [Hlt|Hge].
  - apply (IH _ _ _ Hrun).
  - injection Hrun as <-. assumption.
Qed.

(** A value [next_power_of_two] returns for is at most [2 ^ 30]. *)
Lemma next_power_of_two_needs_room (fuel : nat) (value p : Z) :
  next_power_of_two fuel value = Some p -> value <= 2 ^ 30.
Proof.
  intros Hrun.
  destruct (Z_le_gt_dec value (2 ^ 30)) as [Hle|Hgt]; [assumption|].
  rewrite next_power_of_two_diverges in Hrun by lia. discriminate.
Qed.

(** X1: given room for 32 tests of its loop condition,
    [next_power_of_two] returns exactly for the values up to [2 ^ 30];
    for every larger [int] it never returns. *)
Theorem next_power_of_two_returns_iff (fuel : nat) (value : Z) :
  (32 <= fuel)%nat ->
  ((exists p, next_power_of_two fuel value = Some p) <-> value <= 2 ^ 30).
Proof.
  intros Hfuel. split.
  - intros [p Hrun]. apply (next_power_of_two_needs_room fuel value p Hrun).
  - intros Hle.
    destruct (next_power_of_two_returns fuel value Hfuel Hle)
      as (k & _ & _ & _ & Hrun).
    exists (2 ^ k). assumption.
Qed.

(** The theorem at the value 1024. *)
Lemma next_power_of_two_returns_iff_1024 :
  (exists p, next_power_of_two 32 1024 = Some p) <-> 1024 <= 2 ^ 30.
Proof.
  apply (next_power_of_two_returns_iff 32 1024). lia.
Defined.

(** X2: [next_power_of_two] returns 1 for every value up to 1, zero and
    the negative ones included, and returns a power of two up to [2 ^ 30]
    unchanged. *)
Theorem next_power_of_two_fixed_points (fuel : nat) (value k : Z) :
  (32 <= fuel)%nat ->
  (value <= 1 -> next_power_of_two fuel value = Some 1) /\
  (0 <= k <= 30 -> next_power_of_two fuel (2 ^ k) = Some (2 ^ k)).
Proof.
  intros Hfuel. split.
  - intros Hv. destruct fuel as [|fuel]; [lia|].
    unfold next_power_of_two. rewrite next_power_of_two_loop_step.
    destruct (Z.ltb_spec 1 value); [lia | reflexivity].
  - intros Hk.
    assert (Hle : 2 ^ k <= 2 ^ 30) by (apply pow2_le; lia).
    destruct (next_power_of_two_returns fuel (2 ^ k) Hfuel Hle)
      as (j & Hj & Hvj & Hmin & Hrun).
    rewrite Hrun. f_equal.
    apply (next_power_from_unique (2 ^ k)).
    + apply next_power_from_intro; lia || assumption.
    + apply next_power_from_self. exists k. split; [lia | reflexivity].
Qed.

(** The theorem at the values -5 and [2 ^ 4]. *)
Lemma next_power_of_two_fixed_points_16 :
  (-5 <= 1 -> next_power_of_two 32 (-5) = Some 1) /\
  (0 <= 4 <= 30 -> next_power_of_two 32 (2 ^ 4) = Some (2 ^ 4)).
Proof.
  apply (next_power_of_two_fixed_points 32 (-5) 4). lia.
Defined.

(** X3: [next_power_of_two] is monotone on the values it returns for: a
    larger value never gets a smaller power. *)
Theorem next_power_of_two_monotone (fuel : nat) (small large : Z) :
  (32 <= fuel)%nat -> small <= large -> large <= 2 ^ 30 ->
  exists p q,
    next_power_of_two fuel small = Some p /\
    next_power_of_two fuel large = Some q /\ p <= q.
Proof.
  intros Hfuel Hle Hmax.
  destruct (next_power_of_two_returns fuel small Hfuel ltac:(lia))
    as (i & Hi & Hvi & Himin & Hruni).
  destruct (next_power_of_two_returns fuel large Hfuel Hmax)
    as (j & Hj & Hvj & Hjmin & Hrunj).
  exists (2 ^ i), (2 ^ j). split; [assumption|]. split; [assumption|].
  destruct Himin as [-> | Himin].
  - pose proof (pow2_pos j ltac:(lia)). simpl. lia.
  - destruct (Z.eq_dec i 0) as [-> | Hi0].
    + pose proof (pow2_pos j ltac:(lia)). simpl. lia.
    + apply pow2_le. split; [lia|].
      assert (i - 1 < j) by (apply pow2_lt_inv; lia). lia.
Qed.

(** The theorem at the values 17 and 40. *)
Lemma next_power_of_two_monotone_17_40 :
  exists p q,
    next_power_of_two 32 17 = Some p /\
    next_power_of_two 32 40 = Some q /\ p <= q.
Proof.
  apply (next_power_of_two_monotone 32 17 40); lia.
Defined.

(** ** [custom_write] on any payload *)

(** X4: whatever the payload and the arguments, a [custom_write] that
    returns never shrinks the capacity, and it leaves the counter at most
    equal to the capacity. *)
Theorem custom_write_never_shrinks fuel fresh custom data len custom' r printed :
  custom_write fuel fresh custom data len = Some (custom', r, printed) ->
  capacity custom <= capacity custom' /\
  total_bytes_written custom' <= capacity custom'.
Proof.
  intros Hrun.
  destruct (custom_write_fields _ _ _ _ _ _ _ _ Hrun)
    as (_ & Htotal & [[Hlt Hsame] | [Hge Hnext]]).
  - rewrite Htotal, Hsame. lia.
  - apply next_power_of_two_loop_covers in Hnext. rewrite Htotal. lia.
Qed.

(** The theorem at a write of 20 bytes on a new handle. *)
Lemma custom_write_never_shrinks_at_20 :
  let custom' :=
    mkCustom 20 32
      (Some (list_ascii_of_string "0123456789abcdefghij" ++ repeat NUL 12)) in
  capacity (initial_payload zeroed) <= capacity custom' /\
  total_bytes_written custom' <= capacity custom'.
Proof.
  intros custom'.
  apply (custom_write_never_shrinks 32 zeroed (initial_payload zeroed)
           "0123456789abcdefghij" 20 custom' 20 "[20] 0123456789abcdefghij").
  reflexivity.
Defined.

(** X5: [custom_write] is caught for ever in the loop of
    [next_power_of_two] exactly when the new value of the counter is at
    least the capacity and above [2 ^ 30]; in every other case the loop is
    left within 32 tests of its condition and the call goes on to its
    stores. *)
Theorem custom_write_hangs_iff fuel fresh custom data len :
  (32 <= fuel)%nat ->
  let total := wrap (total_bytes_written custom + len) in
  (custom_write fuel fresh custom data len = None <->
   capacity custom <= total /\ 2 ^ 30 < total) /\
  (capacity custom <= total /\ 2 ^ 30 < total ->
   forall more, custom_write more fresh custom data len = None).
Proof.
  intros Hfuel total.
  assert (Hhang : capacity custom <= total /\ 2 ^ 30 < total ->
                  forall more, custom_write more fresh custom data len = None).
  { intros [Hge Hbig] more. unfold custom_write. fold total.
    rewrite Z.geb_leb.
    destruct (Z.leb_spec (capacity custom) total) as [_|]; [|lia].
    rewrite next_power_of_two_diverges by assumption. reflexivity. }
  split; [|assumption]. split; [|intros H; apply Hhang; assumption].
  unfold custom_write. fold total. rewrite Z.geb_leb.
  destruct (Z.leb_spec (capacity custom) total) as [Hge|Hlt]; [|discriminate].
  destruct (Z_le_gt_dec total (2 ^ 30)) as [Hle|Hgt].
  - destruct (next_power_of_two_returns fuel total Hfuel Hle)
      as (k & _ & _ & _ & Hrun).
    rewrite Hrun. discriminate.
  - intros _. split; [assumption | lia].
Qed.

(** The theorem at a write of [INT_MAX] bytes on a new handle. *)
Lemma custom_write_hangs_at_int_max :
  let total := wrap (total_bytes_written (initial_payload zeroed) + INT_MAX) in
  (custom_write 32 zeroed (initial_payload zeroed) "" INT_MAX = None <->
   capacity (initial_payload zeroed) <= total /\ 2 ^ 30 < total) /\
  (capacity (initial_payload zeroed) <= total /\ 2 ^ 30 < total ->
   forall more, custom_write more zeroed (initial_payload zeroed) "" INT_MAX = None).
Proof.
  apply (custom_write_hangs_iff 32 zeroed (initial_payload zeroed) "" INT_MAX).
  lia.
Defined.

(** ** The sizes of the blocks [custom_write] goes through *)

Lemma realloc_length (bytes : list ascii) (n : Z) (fresh : nat -> ascii) :
  exists bytes',
    realloc (Some bytes) n fresh = Some bytes' /\
    List.length bytes' = Z.to_nat n.
Proof.
  unfold realloc. eexists. split; [reflexivity|].
  rewrite length_app, length_map, length_seq, length_firstn. lia.
Qed.

Lemma write_at_length (bytes src bytes' : list ascii) (k : nat) :
  write_at bytes k src = Some bytes' -> List.length bytes' = List.length bytes.
Proof.
  unfold write_at.
  destruct (Nat.leb_spec (k + List.length src) (List.length bytes)) as [Hle|];
    [|discriminate].
  intros H. injection H as <-.
  rewrite !length_app, length_firstn, length_skipn. lia.
Qed.

Lemma strncat_length (bytes bytes' : list ascii) (src : string) (n : Z) :
  strncat (Some bytes) src n = Some bytes' ->
  List.length bytes' = List.length bytes.
Proof.
  unfold strncat. destruct (find_nul bytes) as [k|]; [|discriminate].
  apply write_at_length.
Qed.

(** A store at the size of the block, or behind it, is outside. *)
Lemma store_outside (p : block) (i : Z) (c : ascii) :
  (forall bytes, p = Some bytes -> Z.of_nat (List.length bytes) <= i) ->
  store p i c = None.
Proof.
  intros Hsize. destruct p as [bytes|]; [|reflexivity].
  unfold store. specialize (Hsize bytes eq_refl).
  destruct (Z.ltb_spec i (Z.of_nat (List.length bytes))) as [|_]; [lia|].
  rewrite andb_false_r. reflexivity.
Qed.

(** X7: on every payload a handle can be in, a write that brings the
    accumulated size (at most [2 ^ 30]) to a power of two that is not below
    the capacity leaves counter and capacity both at that size, and its
    last store, the terminator at index [total_bytes_written], falls
    outside the reallocated block. *)
Theorem custom_write_overruns_at_power_of_two fuel fresh custom data len :
  reachable custom -> (32 <= fuel)%nat -> 0 <= len ->
  total_bytes_written custom + len <= MAX_SIZE ->
  capacity custom <= total_bytes_written custom + len ->
  is_power_of_two (total_bytes_written custom + len) ->
  exists printed,
    custom_write fuel fresh custom data len
    = Some (mkCustom (total_bytes_written custom + len)
                     (total_bytes_written custom + len) None,
            len, printed).
Proof.
  intros Hreach Hfuel Hlen Hmax Hge (k & Hk & Hpow).
  destruct (reachable_fields custom Hreach) as (Hrange & Hcap & _).
  assert (Hwrap : wrap (total_bytes_written custom + len) =
                  total_bytes_written custom + len).
  { apply wrap_in_range. unfold in_range, INT_MIN, INT_MAX, MAX_SIZE in *.
    change (2 ^ 31) with (2 * 2 ^ 30). lia. }
  assert (Hk30 : k <= 30).
  { destruct (Z_le_gt_dec k 30) as [|Hgt]; [assumption|].
    pose proof (pow2_le 31 k ltac:(lia)) as H. unfold MAX_SIZE in Hmax.
    change (2 ^ 31) with (2 * 2 ^ 30) in H. lia. }
  assert (Hnext : next_power_of_two fuel (total_bytes_written custom + len)
                  = Some (total_bytes_written custom + len)).
  { unfold MAX_SIZE in Hmax.
    destruct (next_power_of_two_returns fuel _ Hfuel Hmax)
      as (j & Hj & Hvj & Hmin & Hrun).
    rewrite Hrun. f_equal.
    apply (next_power_from_unique (total_bytes_written custom + len)).
    - apply next_power_from_intro; lia || assumption.
    - apply next_power_from_self. exists k. auto. }
  unfold custom_write. rewrite Hwrap, Z.geb_leb.
  destruct (Z.leb_spec (capacity custom) (total_bytes_written custom + len))
    as [_|]; [|lia].
  rewrite Hnext.
  rewrite store_outside; [eexists; reflexivity|].
  intros bytes Hbytes.
  destruct (buffer custom) as [old|]; [|discriminate].
  destruct (realloc_length old (total_bytes_written custom + len) fresh)
    as (grown & Hgrown & Hsize).
  rewrite Hgrown in Hbytes. apply strncat_length in Hbytes. lia.
Qed.

(** The theorem at a write of 16 bytes on a new handle. *)
Lemma custom_write_overruns_at_16 :
  exists printed,
    custom_write 32 zeroed (initial_payload zeroed) "0123456789abcdef" 16
    = Some (mkCustom (total_bytes_written (initial_payload zeroed) + 16)
                     (total_bytes_written (initial_payload zeroed) + 16) None,
            16, printed).
Proof.
  apply (custom_write_overruns_at_power_of_two 32 zeroed (initial_payload zeroed)
           "0123456789abcdef" 16).
  - apply reachable_initial.
  - lia.
  - lia.
  - vm_compute. discriminate.
  - simpl. lia.
  - exists 4. split; [lia | reflexivity].
Defined.

(** ** What the buffer holds along a sequence of calls *)

(** With the length [strlen] gives, [strncat] copies the whole text. *)
Lemma strncat_source_whole (data : string) :
  strncat_source data (strlen data) = list_ascii_of_string (c_str data).
Proof.
  unfold strncat_source, strlen.
  destruct (Z.ltb_spec (Z.of_nat (String.length (c_str data))) 0) as [|_]; [lia|].
  apply firstn_all2. rewrite list_ascii_of_string_length. lia.
Qed.

Lemma read_string_text custom text :
  holds_text custom text ->
  read_string (buffer custom) = Some (string_of_list_ascii text).
Proof.
  intros (rest & Hbuf & _ & Hno & _).
  unfold read_string. rewrite Hbuf, find_nul_text by assumption.
  rewrite firstn_app, firstn_all, Nat.sub_diag. simpl firstn.
  rewrite app_nil_r. reflexivity.
Qed.

Lemma fresh_block_text (fresh : nat -> ascii) :
  fresh O = NUL -> holds_text (mkCustom 0 16 (malloc 16 fresh)) [].
Proof.
  intros Hzero. exists (map fresh (seq 1 15)).
  unfold malloc. change (Z.to_nat 16) with 16%nat.
  cbn [buffer capacity total_bytes_written seq map app List.length].
  rewrite Hzero.
  split; [reflexivity|]. split; [reflexivity|]. split; [tauto|lia].
Qed.

(** X6: a write of a whole C string ([len = strlen(data)], as both
    programs call it) that leaves the accumulated size below the capacity
    it ends with appends exactly the text of the data to the buffered text;
    the counter stays equal to the length of the buffered text, and the
    terminator is stored inside the allocation. *)
Theorem custom_write_whole_string fuel fresh custom data text :
  reachable custom -> holds_text custom text ->
  Z.of_nat (List.length text) = total_bytes_written custom ->
  (32 <= fuel)%nat ->
  total_bytes_written custom + strlen data <= MAX_SIZE ->
  (total_bytes_written custom + strlen data < capacity custom \/
   ~ is_power_of_two (total_bytes_written custom + strlen data)) ->
  exists custom' printed,
    custom_write fuel fresh custom data (strlen data)
    = Some (custom', strlen data, printed) /\
    holds_text custom' (text ++ list_ascii_of_string (c_str data)) /\
    Z.of_nat (List.length (text ++ list_ascii_of_string (c_str data)))
    = total_bytes_written custom' /\
    total_bytes_written custom' < capacity custom'.
Proof.
  intros Hreach Htext Hlen Hfuel Hmax Hroom.
  assert (Hpos : 0 <= strlen data) by (unfold strlen; lia).
  destruct (custom_write_appends fuel fresh custom data (strlen data) text
              Hreach Htext Hfuel Hpos Hmax Hroom)
    as (custom' & printed & Hrun & Htext' & Hinside).
  exists custom', printed. rewrite strncat_source_whole in Htext'.
  repeat split; try assumption.
  destruct (custom_write_fields _ _ _ _ _ _ _ _ Hrun) as (_ & Htotal & _).
  destruct (reachable_fields custom Hreach) as (Hrange & _).
  rewrite Htotal, wrap_in_range.
  - rewrite length_app, list_ascii_of_string_length. unfold strlen. lia.
  - unfold in_range, INT_MIN, INT_MAX, MAX_SIZE in *.
    change (2 ^ 31) with (2 * 2 ^ 30). lia.
Qed.

(** The theorem at the write of the greeting on a new handle. *)
Lemma custom_write_whole_greeting :
  exists custom' printed,
    custom_write 32 zeroed (initial_payload zeroed) greeting (strlen greeting)
    = Some (custom', strlen greeting, printed) /\
    holds_text custom' ([] ++ list_ascii_of_string (c_str greeting)) /\
    Z.of_nat (List.length ([] ++ list_ascii_of_string (c_str greeting)))
    = total_bytes_written custom' /\
    total_bytes_written custom' < capacity custom'.
Proof.
  apply (custom_write_whole_string 32 zeroed (initial_payload zeroed) greeting []).
  - apply reachable_initial.
  - apply initial_payload_text.
  - reflexivity.
  - lia.
  - vm_compute. discriminate.
  - left. vm_compute. reflexivity.
Defined.

(** The buffered text along a sequence of calls, as long as the
    allocator's blocks start with a NUL and no write lands on a power of
    two. *)
Lemma run_text (calls : list call) :
  forall fuel fresh custom text,
    (32 <= fuel)%nat -> (forall n, fresh n O = NUL) ->
    reachable custom -> holds_text custom text ->
    0 <= total_bytes_written custom ->
    within_limit (total_bytes_written custom) calls ->
    clear_of_powers (total_bytes_written custom) calls ->
    exists custom',
      run fuel fresh custom calls = Some custom' /\
      reachable custom' /\
      holds_text custom' (buffered_since_flush text calls).
Proof.
  induction calls as [|[data len|] rest IH];
    intros fuel fresh custom text Hfuel Hzero Hreach Htext Hpos Hlimit Hclear.
  - exists custom. simpl. auto.
  - simpl in Hlimit, Hclear.
    destruct Hlimit as (Hlen & Hmax & Hlimit). destruct Hclear as (Hroom & Hclear).
    destruct (reachable_fields custom Hreach) as (Hrange & Hcap & _).
    destruct (custom_write_appends fuel (fresh (List.length rest)) custom data len text
                Hreach Htext Hfuel Hlen Hmax)
      as (custom1 & printed & Hrun & Htext1 & _).
    { destruct Hroom as [Hsmall | Hodd]; [left; lia | right; assumption]. }
    assert (Htotal : total_bytes_written custom1 = total_bytes_written custom + len).
    { destruct (custom_write_fields _ _ _ _ _ _ _ _ Hrun) as (_ & Htotal & _).
      rewrite Htotal. apply wrap_in_range.
      unfold in_range, INT_MIN, INT_MAX, MAX_SIZE in *.
      change (2 ^ 31) with (2 * 2 ^ 30). lia. }
    destruct (IH fuel fresh custom1 (text ++ strncat_source data len) Hfuel Hzero)
      as (custom' & Hrest & Hreach' & Htext');
      [ apply (reachable_write _ _ _ _ _ _ _ _ Hreach Hlen Hrun)
      | assumption
      | rewrite Htotal; lia
      | rewrite Htotal; assumption
      | rewrite Htotal; assumption
      | ].
    exists custom'. simpl. rewrite Hrun. auto.
  - simpl in Hlimit, Hclear.
    destruct (IH fuel fresh (mkCustom 0 16 (malloc 16 (fresh (List.length rest)))) []
                Hfuel Hzero)
      as (custom' & Hrest & Hreach' & Htext');
      [ apply (reachable_flush (fresh (List.length rest)) custom _ 0
                 (snd (custom_flush (fresh (List.length rest)) custom)) Hreach);
        reflexivity
      | apply fresh_block_text; apply Hzero
      | simpl; lia
      | assumption
      | assumption
      | ].
    exists custom'. simpl. auto.
Qed.

(** X8: on a new handle, with an allocator whose blocks start with a
    NUL, after any sequence of writes and flushes that stays within
    [2 ^ 30] bytes between flushes and never brings the accumulated size to
    a power of two from 16 on, a flush prints between the two markers
    exactly the text written since the last flush: for each write, what
    [strncat] copies of its data, in order. *)
Theorem flush_prints_what_was_written fuel fresh fresh0 fresh1 calls :
  (32 <= fuel)%nat -> (forall n, fresh n O = NUL) ->
  within_limit 0 calls -> clear_of_powers 0 calls ->
  exists custom,
    run fuel fresh (initial_payload fresh0) calls = Some custom /\
    custom_flush fresh1 custom
    = (mkCustom 0 16 (malloc 16 fresh1), 0,
       Some (BEGIN_FLUSH
             ++ string_of_list_ascii (buffered_since_flush [] calls)
             ++ END_FLUSH)%string).
Proof.
  intros Hfuel Hzero Hlimit Hclear.
  destruct (run_text calls fuel fresh (initial_payload fresh0) [] Hfuel Hzero)
    as (custom & Hrun & _ & Htext);
    [ apply reachable_initial | apply initial_payload_text | simpl; lia
    | assumption | assumption | ].
  exists custom. split; [assumption|].
  rewrite custom_flush_fields, (read_string_text custom _ Htext). reflexivity.
Qed.

(** The theorem at: write ["ab"], flush, write ["cd"], write ["e"]. *)
Lemma flush_prints_cde :
  exists custom,
    run 32 (fun _ => zeroed) (initial_payload stale)
        [Write "ab" 2; Flush; Write "cd" 2; Write "e" 1] = Some custom /\
    custom_flush stale custom
    = (mkCustom 0 16 (malloc 16 stale), 0,
       Some "[BEGIN FLUSH]cde[END FLUSH]").
Proof.
  apply (flush_prints_what_was_written 32 (fun _ => zeroed) stale stale
           [Write "ab" 2; Flush; Write "cd" 2; Write "e" 1]).
  - lia.
  - reflexivity.
  - simpl. unfold MAX_SIZE. lia.
  - simpl. lia.
Defined.

(** X9: after any sequence of writes and flushes on a new handle that
    stays within [2 ^ 30] bytes between flushes, the capacity is a power of
    two from 16 on, it is not below the counter, and unless it is still 16
    it is less than twice the counter. *)
Theorem run_capacity_fits fuel fresh fresh0 calls :
  (32 <= fuel)%nat -> within_limit 0 calls ->
  exists custom,
    run fuel fresh (initial_payload fresh0) calls = Some custom /\
    0 <= total_bytes_written custom <= capacity custom /\
    16 <= capacity custom /\ is_power_of_two (capacity custom) /\
    (capacity custom = 16 \/ capacity custom < 2 * total_bytes_written custom).
Proof.
  intros Hfuel Hlimit.
  destruct (run_fields calls fuel fresh (initial_payload fresh0) Hfuel)
    as (custom & Hrun & _ & Hpos & (H16 & Hpow & Hfit & Hsnug));
    [simpl; lia | apply capacity_for_initial | assumption |].
  exists custom. repeat split; assumption.
Qed.

(** The theorem at three writes of 10 bytes. *)
Lemma run_capacity_fits_30 :
  exists custom,
    run 32 (fun _ => zeroed) (initial_payload zeroed)
        [Write "0123456789" 10; Write "0123456789" 10; Write "0123456789" 10]
    = Some custom /\
    0 <= total_bytes_written custom <= capacity custom /\
    16 <= capacity custom /\ is_power_of_two (capacity custom) /\
    (capacity custom = 16 \/ capacity custom < 2 * total_bytes_written custom).
Proof.
  apply (run_capacity_fits 32 (fun _ => zeroed) zeroed
           [Write "0123456789" 10; Write "0123456789" 10; Write "0123456789" 10]).
  - lia.
  - simpl. unfold MAX_SIZE. lia.
Defined.

(** ** The programs: arguments, construction, greeting, exit status *)

Lemma is_help_text (arg : string) :
  is_help arg = true <-> (c_str arg = "-h" \/ c_str arg = "--help").
Proof.
  unfold is_help. rewrite orb_true_iff, !Z.eqb_eq, !strcmp_zero. reflexivity.
Qed.

Section Runs.

Variable FileHandle : Type.
Variable new_file_handle_from_path : string -> option FileHandle.
Variable new_stdout_file_handle : option FileHandle.
Variable custom_file_handle : option FileHandle.
Variable file_handle_write : FileHandle -> string -> Z -> FileHandle * Z.
Variable file_handle_flush : FileHandle -> FileHandle * Z.

Local Abbreviation example :=
  (example_main FileHandle new_file_handle_from_path
     new_stdout_file_handle file_handle_write).
Local Abbreviation ffi :=
  (ffi_main FileHandle new_file_handle_from_path
     new_stdout_file_handle custom_file_handle
     file_handle_write file_handle_flush).

Lemma example_args_help (args : list string) :
  example_args args = true <-> exists arg, In arg args /\ is_help arg = true.
Proof.
  induction args as [|arg rest IH]; simpl.
  - split; [discriminate | intros (arg & [] & _)].
  - destruct (is_help arg) eqn:Hhelp.
    + split; [|reflexivity]. intros _. exists arg. auto.
    + rewrite IH. split.
      * intros (arg' & Hin & Harg). exists arg'. auto.
      * intros (arg' & [<- | Hin] & Harg); [congruence|]. exists arg'. auto.
Qed.

Lemma ffi_args_help (args : list string) :
  forall custom,
    ffi_args args custom = None <-> exists arg, In arg args /\ is_help arg = true.
Proof.
  induction args as [|arg rest IH]; intros custom; simpl.
  - split; [discriminate | intros (arg & [] & _)].
  - destruct (is_help arg) eqn:Hhelp.
    + split; [|reflexivity]. intros _. exists arg. auto.
    + assert (Hrest : (exists arg', In arg' (arg :: rest) /\ is_help arg' = true) <->
                      (exists arg', In arg' rest /\ is_help arg' = true)).
      { split.
        - intros (arg' & [<- | Hin] & Harg); [congruence|]. exists arg'. auto.
        - intros (arg' & Hin & Harg). exists arg'. simpl. auto. }
      simpl in Hrest. rewrite Hrest.
      destruct ((strcmp arg "-c" =? 0) || negb (strcmp arg "--custom" =? 0));
        apply IH.
Qed.

(** X10: when any argument of either program is ["-h"] or ["--help"],
    wherever it stands, the program prints its usage line on standard
    error and returns 0; it constructs no handle and reads nothing from
    standard input. *)
Theorem help_flag_only_prints_usage (argv stdin : list string) (arg : string) :
  In arg (tl argv) -> (c_str arg = "-h" \/ c_str arg = "--help") ->
  example argv stdin
  = (0, [Stderr ("Usage: " ++ hd "" argv ++ " [input]" ++ newline)%string]) /\
  ffi argv stdin
  = (0, [Stderr ("Usage: " ++ hd "" argv ++ " [input] [-c|--custom]"
                 ++ newline)%string]).
Proof.
  intros Hin Hhelp. apply is_help_text in Hhelp.
  assert (Hsome : exists arg', In arg' (tl argv) /\ is_help arg' = true)
    by (exists arg; auto).
  split.
  - unfold example_main.
    rewrite (proj2 (example_args_help (tl argv)) Hsome). reflexivity.
  - unfold ffi_main.
    rewrite (proj2 (ffi_args_help (tl argv) false) Hsome). reflexivity.
Qed.

(** X11: without a help flag, [example/main.c] takes its first argument
    as the path to open, whatever that argument is, and wraps standard
    output when there is no argument; the constructor call is the first
    thing the run does. *)
Theorem example_main_constructor (argv stdin : list string) :
  (forall arg, In arg (tl argv) -> is_help arg = false) ->
  exists rest,
    snd (example argv stdin)
    = match nth_error argv 1 with
      | Some path => NewFromPath path
      | None => NewStdout
      end :: rest.
Proof.
  intros Hnohelp. unfold example_main.
  assert (Hargs : example_args (tl argv) = false).
  { destruct (example_args (tl argv)) eqn:Hargs; [|reflexivity].
    apply example_args_help in Hargs. destruct Hargs as (arg & Hin & Hhelp).
    rewrite (Hnohelp arg Hin) in Hhelp. discriminate. }
  rewrite Hargs.
  destruct (nth_error argv 1) as [path|].
  - destruct (new_file_handle_from_path path); simpl; eauto.
  - destruct new_stdout_file_handle; simpl; eauto.
Qed.

(** X12: without a help flag, [examples/ffi/main.c] builds the custom
    handle as soon as some argument is anything but ["--custom"]; it opens
    its first argument as a path only when every argument is ["--custom"],
    and wraps standard output only when there is no argument. *)
Theorem ffi_main_constructor (argv stdin : list string) :
  (forall arg, In arg (tl argv) -> is_help arg = false) ->
  exists first rest,
    snd (ffi argv stdin) = first :: rest /\
    ((exists arg, In arg (tl argv) /\ c_str arg <> "--custom") ->
     first = NewCustom) /\
    ((forall arg, In arg (tl argv) -> c_str arg = "--custom") ->
     first = match nth_error argv 1 with
             | Some path => NewFromPath path
             | None => NewStdout
             end).
Proof.
  intros Hnohelp. unfold ffi_main.
  destruct (ffi_args (tl argv) false) as [custom|] eqn:Hargs.
  - pose proof (ffi_args_custom (tl argv) false custom Hargs) as Hcustom.
    destruct custom.
    + exists NewCustom.
      destruct custom_file_handle; simpl; eexists; (split; [reflexivity|]);
        (split; [reflexivity|]);
        intros Hall; destruct (proj1 Hcustom eq_refl) as [H | (arg & Hin & Harg)];
        try discriminate;
        (destruct Harg as [Harg | Harg];
         [rewrite (Hall arg Hin) in Harg; discriminate
         | exfalso; apply Harg; apply Hall; assumption]).
    + assert (Hnone : ~ exists arg, In arg (tl argv) /\ c_str arg <> "--custom").
      { intros (arg & Hin & Harg).
        assert (Htrue : false = true); [|discriminate].
        apply Hcustom. right. exists arg. auto. }
      destruct (nth_error argv 1) as [path|].
      * exists (NewFromPath path).
        destruct (new_file_handle_from_path path); simpl; eexists;
          (split; [reflexivity|]); (split; [intros H; contradiction | reflexivity]).
      * exists NewStdout.
        destruct new_stdout_file_handle; simpl; eexists;
          (split; [reflexivity|]); (split; [intros H; contradiction | reflexivity]).
  - apply ffi_args_help in Hargs. destruct Hargs as (arg & Hin & Hhelp).
    rewrite (Hnohelp arg Hin) in Hhelp. discriminate.
Qed.

(** X13: when the library's two constructors hand back no handle,
    [example/main.c], run without a help flag, reports the failure to open
    and returns 1 right after the constructor call, without a write, a
    flush or a destroy; so does [examples/ffi/main.c] on the runs that go
    to those constructors, the ones where every argument is
    ["--custom"]. *)
Theorem no_handle_no_calls (argv stdin : list string) :
  (forall path, new_file_handle_from_path path = None) ->
  new_stdout_file_handle = None ->
  let constructed :=
    match nth_error argv 1 with
    | Some path => NewFromPath path
    | None => NewStdout
    end in
  ((forall arg, In arg (tl argv) -> is_help arg = false) ->
   example argv stdin = (1, [constructed; Perror open_failed])) /\
  ((forall arg, In arg (tl argv) -> c_str arg = "--custom") ->
   ffi argv stdin = (1, [constructed; Perror open_failed])).
Proof.
  intros Hpath Hstdout constructed. unfold constructed. split.
  - intros Hnohelp. unfold example_main.
    assert (Hargs : example_args (tl argv) = false).
    { destruct (example_args (tl argv)) eqn:Hargs; [|reflexivity].
      apply example_args_help in Hargs. destruct Hargs as (arg & Hin & Hhelp).
      rewrite (Hnohelp arg Hin) in Hhelp. discriminate. }
    rewrite Hargs. destruct (nth_error argv 1) as [path|].
    + rewrite Hpath. reflexivity.
    + rewrite Hstdout. reflexivity.
  - intros Hall. unfold ffi_main.
    destruct (ffi_args (tl argv) false) as [custom|] eqn:Hargs.
    + pose proof (ffi_args_custom (tl argv) false custom Hargs) as Hcustom.
      destruct custom.
      * exfalso.
        destruct (proj1 Hcustom eq_refl) as [H | (arg & Hin & [Harg | Harg])].
        -- discriminate.
        -- rewrite (Hall arg Hin) in Harg. discriminate.
        -- apply Harg. apply Hall. assumption.
      * destruct (nth_error argv 1) as [path|].
        -- rewrite Hpath. reflexivity.
        -- rewrite Hstdout. reflexivity.
    + exfalso. apply ffi_args_help in Hargs.
      destruct Hargs as (arg & Hin & Hhelp). apply is_help_text in Hhelp.
      rewrite (Hall arg Hin) in Hhelp. destruct Hhelp; discriminate.
Qed.

(** X14: when the write of the greeting returns anything but 13, short
    writes included, either program reports it, destroys the handle and
    returns 1; nothing of standard input is handed to the handle. *)
Theorem short_greeting_stops_the_run (argv stdin : list string) :
  (forall handle, snd (file_handle_write handle greeting 13) <> 13) ->
  (written_buffers (snd (example argv stdin)) = [] \/
   exists constructed r,
     r <> 13 /\
     example argv stdin
     = (1, [constructed; WriteCall greeting 13 r; Perror greeting_failed;
            DestroyCall])) /\
  (written_buffers (snd (ffi argv stdin)) = [] \/
   exists constructed r,
     r <> 13 /\
     ffi argv stdin
     = (1, [constructed; WriteCall greeting 13 r; Perror greeting_failed;
            DestroyCall])).
Proof.
  intros Hshort.
  assert (Hgreet : forall copy handle constructed,
             exists r, r <> 13 /\
               emit constructed (greet_then FileHandle file_handle_write copy
                                   handle stdin)
               = (1, [constructed; WriteCall greeting 13 r;
                      Perror greeting_failed; DestroyCall])).
  { intros copy handle constructed. unfold greet_then.
    change (strlen greeting) with 13.
    specialize (Hshort handle).
    destruct (file_handle_write handle greeting 13) as [handle' r].
    simpl in Hshort. exists r. split; [assumption|].
    destruct (Z.eqb_spec r 13) as [|_]; [contradiction|]. reflexivity. }
  split.
  - unfold example_main.
    destruct (example_args (tl argv)); [left; reflexivity|].
    destruct (nth_error argv 1) as [path|].
    + destruct (new_file_handle_from_path path) as [handle|]; [|left; reflexivity].
      right. destruct (Hgreet (example_copy FileHandle file_handle_write)
                         handle (NewFromPath path)) as (r & Hr & Hrun).
      exists (NewFromPath path), r. auto.
    + destruct new_stdout_file_handle as [handle|]; [|left; reflexivity].
      right. destruct (Hgreet (example_copy FileHandle file_handle_write)
                         handle NewStdout) as (r & Hr & Hrun).
      exists NewStdout, r. auto.
  - unfold ffi_main.
    destruct (ffi_args (tl argv) false) as [[|]|]; [| |left; reflexivity].
    + destruct custom_file_handle as [handle|]; [|left; reflexivity].
      right. destruct (Hgreet (ffi_copy FileHandle file_handle_write file_handle_flush)
                         handle NewCustom) as (r & Hr & Hrun).
      exists NewCustom, r. auto.
    + destruct (nth_error argv 1) as [path|].
      * destruct (new_file_handle_from_path path) as [handle|]; [|left; reflexivity].
        right. destruct (Hgreet (ffi_copy FileHandle file_handle_write file_handle_flush)
                           handle (NewFromPath path)) as (r & Hr & Hrun).
        exists (NewFromPath path), r. auto.
      * destruct new_stdout_file_handle as [handle|]; [|left; reflexivity].
        right. destruct (Hgreet (ffi_copy FileHandle file_handle_write file_handle_flush)
                           handle NewStdout) as (r & Hr & Hrun).
        exists NewStdout, r. auto.
Qed.

(** *** Exit status *)

Lemma existsb_emit (f : event -> bool) e rest :
  existsb f (snd (emit e rest)) = f e || existsb f (snd rest).
Proof. reflexivity. Qed.

Lemma example_copy_exit (stdin : list string) :
  forall handle,
    let run := example_copy FileHandle file_handle_write handle stdin in
    fst run = 0 <-> existsb is_perror (snd run) = false.
Proof.
  induction stdin as [|buffer rest IH]; intros handle; simpl.
  - split; reflexivity.
  - destruct (file_handle_write handle buffer (strlen buffer)) as [handle' r].
    destruct (r <? 0); simpl.
    + split; discriminate.
    + apply IH.
Qed.

Lemma ffi_copy_exit (stdin : list string) :
  forall handle,
    let run := ffi_copy FileHandle file_handle_write file_handle_flush
                 handle stdin in
    fst run = 0 <-> existsb is_perror (snd run) = false.
Proof.
  induction stdin as [|buffer rest IH]; intros handle; simpl.
  - split; reflexivity.
  - destruct (file_handle_write handle buffer (strlen buffer)) as [handle' r].
    destruct (r <? 0); simpl.
    + split; discriminate.
    + destruct (strstr buffer "flush").
      * destruct (file_handle_flush handle') as [handle'' ret].
        destruct (Z.eqb_spec ret 0) as [->|Hret]; simpl.
        -- apply IH.
        -- split; [intros H; contradiction | discriminate].
      * apply IH.
Qed.

(** X15: either program returns 0 exactly when its run reported no error
    through [perror]; every run that reports one returns a non-zero status
    (1, or the status of the failed flush). *)
Theorem exit_zero_iff_no_error (argv stdin : list string) :
  (fst (example argv stdin) = 0 <->
   existsb is_perror (snd (example argv stdin)) = false) /\
  (fst (ffi argv stdin) = 0 <->
   existsb is_perror (snd (ffi argv stdin)) = false).
Proof.
  assert (Hgreet : forall copy handle constructed,
             is_perror constructed = false ->
             (forall h, fst (copy h stdin) = 0 <->
                        existsb is_perror (snd (copy h stdin)) = false) ->
             let run := emit constructed
                          (greet_then FileHandle file_handle_write copy handle stdin) in
             fst run = 0 <-> existsb is_perror (snd run) = false).
  { intros copy handle constructed Hc Hcopy. unfold greet_then.
    destruct (file_handle_write handle greeting (strlen greeting)) as [handle' r].
    destruct (negb (r =? strlen greeting)).
    - simpl. rewrite Hc. simpl. split; discriminate.
    - rewrite !existsb_emit. rewrite Hc. simpl. apply Hcopy. }
  split.
  - unfold example_main.
    destruct (example_args (tl argv)); [split; reflexivity|].
    destruct (nth_error argv 1) as [path|].
    + destruct (new_file_handle_from_path path) as [handle|].
      * apply Hgreet; [reflexivity|]. intros h. apply example_copy_exit.
      * simpl. split; discriminate.
    + destruct new_stdout_file_handle as [handle|].
      * apply Hgreet; [reflexivity|]. intros h. apply example_copy_exit.
      * simpl. split; discriminate.
  - unfold ffi_main.
    destruct (ffi_args (tl argv) false) as [[|]|]; [| |split; reflexivity].
    + destruct custom_file_handle as [handle|].
      * apply Hgreet; [reflexivity|]. intros h. apply ffi_copy_exit.
      * simpl. split; discriminate.
    + destruct (nth_error argv 1) as [path|].
      * destruct (new_file_handle_from_path path) as [handle|].
        -- apply Hgreet; [reflexivity|]. intros h. apply ffi_copy_exit.
        -- simpl. split; discriminate.
      * destruct new_stdout_file_handle as [handle|].
        -- apply Hgreet; [reflexivity|]. intros h. apply ffi_copy_exit.
        -- simpl. split; discriminate.
Qed.

(** *** Flushes *)

Lemma example_copy_never_flushes (stdin : list string) :
  forall handle,
    existsb is_flush
      (snd (example_copy FileHandle file_handle_write handle stdin)) = false.
Proof.
  induction stdin as [|buffer rest IH]; intros handle; simpl.
  - reflexivity.
  - destruct (file_handle_write handle buffer (strlen buffer)) as [handle' r].
    destruct (r <? 0); simpl; [reflexivity | apply IH].
Qed.

(** A write in front of a trace that does not start with a flush. *)
Lemma flushes_follow_requests_write data len r (t : list event) :
  match t with FlushCall _ :: _ => False | _ => True end ->
  flushes_follow_requests t ->
  flushes_follow_requests (WriteCall data len r :: t).
Proof.
  destruct t as [|[ | | | | | | |] t]; simpl; tauto.
Qed.

Lemma ffi_copy_flushes (stdin : list string) :
  forall handle,
    let t := snd (ffi_copy FileHandle file_handle_write file_handle_flush
                    handle stdin) in
    match t with FlushCall _ :: _ => False | _ => True end /\
    flushes_follow_requests t.
Proof.
  induction stdin as [|buffer rest IH]; intros handle; simpl.
  - split; exact I.
  - destruct (file_handle_write handle buffer (strlen buffer)) as [handle' r].
    destruct (Z.ltb_spec r 0) as [Hneg|Hpos].
    + simpl. split; exact I.
    + destruct (strstr buffer "flush") eqn:Hrequest.
      * destruct (file_handle_flush handle') as [handle'' ret].
        destruct (negb (ret =? 0)).
        -- simpl. repeat split; assumption.
        -- destruct (IH handle'') as [_ Hrest].
           simpl. repeat split; assumption.
      * destruct (IH handle') as [Hhead Hrest].
        split; [exact I|].
        apply flushes_follow_requests_write; assumption.
Qed.

(** X16: [example/main.c] never calls [file_handle_flush]; in
    [examples/ffi/main.c] every call of [file_handle_flush] comes right
    after a [file_handle_write] that was handed a buffer containing
    ["flush"] and did not return a negative result. *)
Theorem flushes_only_on_request (argv stdin : list string) :
  existsb is_flush (snd (example argv stdin)) = false /\
  flushes_follow_requests (snd (ffi argv stdin)).
Proof.
  split.
  - assert (Hgreet : forall handle constructed,
               is_flush constructed = false ->
               existsb is_flush
                 (snd (emit constructed
                         (greet_then FileHandle file_handle_write
                            (example_copy FileHandle file_handle_write)
                            handle stdin))) = false).
    { intros handle constructed Hc. unfold greet_then.
      destruct (file_handle_write handle greeting (strlen greeting)) as [handle' r].
      destruct (negb (r =? strlen greeting)).
      - simpl. rewrite Hc. reflexivity.
      - rewrite !existsb_emit. rewrite Hc. simpl.
        apply example_copy_never_flushes. }
    unfold example_main.
    destruct (example_args (tl argv)); [reflexivity|].
    destruct (nth_error argv 1) as [path|].
    + destruct (new_file_handle_from_path path) as [handle|];
        [apply Hgreet; reflexivity | reflexivity].
    + destruct new_stdout_file_handle as [handle|];
        [apply Hgreet; reflexivity | reflexivity].
  - assert (Hgreet : forall handle constructed,
               is_library_call constructed = true ->
               is_flush constructed = false ->
               uses_handle constructed = false ->
               flushes_follow_requests
                 (snd (emit constructed
                         (greet_then FileHandle file_handle_write
                            (ffi_copy FileHandle file_handle_write file_handle_flush)
                            handle stdin)))).
    { intros handle constructed Hlib Hc Hu. unfold greet_then.
      destruct (file_handle_write handle greeting (strlen greeting)) as [handle' r].
      destruct (negb (r =? strlen greeting)).
      - destruct constructed; try discriminate; simpl; exact I.
      - destruct (ffi_copy_flushes stdin handle') as [Hhead Hrest].
        assert (Hwrite : flushes_follow_requests
                           (WriteCall greeting (strlen greeting) r
                            :: snd (ffi_copy FileHandle file_handle_write
                                      file_handle_flush handle' stdin)))
          by (apply flushes_follow_requests_write; assumption).
        destruct constructed; try discriminate; simpl; exact Hwrite. }
    unfold ffi_main.
    destruct (ffi_args (tl argv) false) as [[|]|]; [| |simpl; exact I].
    + destruct custom_file_handle as [handle|];
        [apply Hgreet; reflexivity | simpl; exact I].
    + destruct (nth_error argv 1) as [path|].
      * destruct (new_file_handle_from_path path) as [handle|];
          [apply Hgreet; reflexivity | simpl; exact I].
      * destruct new_stdout_file_handle as [handle|];
          [apply Hgreet; reflexivity | simpl; exact I].
Qed.

End Runs.

(** *** The theorems of this part at sample runs *)

(** A help flag behind a path and the custom flag. *)
Lemma help_flag_after_other_arguments :
  example_main Z (fun _ => Some 0) (Some 0) sink_write
    ["main"; "out.txt"; "-c"; "--help"] ["line"]
  = (0, [Stderr ("Usage: " ++ "main" ++ " [input]" ++ newline)%string]) /\
  ffi_main Z (fun _ => Some 0) (Some 0) (Some 0) sink_write (sink_flush 0)
    ["main"; "out.txt"; "-c"; "--help"] ["line"]
  = (0, [Stderr ("Usage: " ++ "main" ++ " [input] [-c|--custom]"
                 ++ newline)%string]).
Proof.
  apply (help_flag_only_prints_usage Z (fun _ => Some 0) (Some 0) (Some 0)
           sink_write (sink_flush 0)
           ["main"; "out.txt"; "-c"; "--help"] ["line"] "--help").
  - simpl. auto.
  - right. reflexivity.
Defined.

(** [example/main.c] with the custom flag as its only argument: the flag
    is the path. *)
Lemma example_main_opens_flag_as_path :
  exists rest,
    snd (example_main Z (fun _ => Some 0) (Some 0) sink_write ["main"; "-c"] [])
    = NewFromPath "-c" :: rest.
Proof.
  apply (example_main_constructor Z (fun _ => Some 0) (Some 0) sink_write
           ["main"; "-c"] []).
  intros arg [<- | []]. reflexivity.
Defined.

(** [examples/ffi/main.c] with ["--custom"] twice. *)
Lemma ffi_main_constructor_custom_twice :
  exists first rest,
    snd (ffi_main Z (fun _ => Some 0) (Some 0) (Some 0) sink_write (sink_flush 0)
           ["main"; "--custom"; "--custom"] [])
    = first :: rest /\
    ((exists arg, In arg ["--custom"; "--custom"] /\ c_str arg <> "--custom") ->
     first = NewCustom) /\
    ((forall arg, In arg ["--custom"; "--custom"] -> c_str arg = "--custom") ->
     first = NewFromPath "--custom").
Proof.
  apply (ffi_main_constructor Z (fun _ => Some 0) (Some 0) (Some 0)
           sink_write (sink_flush 0) ["main"; "--custom"; "--custom"] []).
  intros arg [<- | [<- | []]]; reflexivity.
Defined.

(** A library whose two constructors have no handle to give, and the
    one argument that keeps the ffi program away from the custom handle. *)
Lemma no_handle_no_calls_at_path :
  example_main Z (fun _ => None) None sink_write ["main"; "--custom"] ["line"]
  = (1, [NewFromPath "--custom"; Perror open_failed]) /\
  ffi_main Z (fun _ => None) None (Some 0) sink_write (sink_flush 0)
    ["main"; "--custom"] ["line"]
  = (1, [NewFromPath "--custom"; Perror open_failed]).
Proof.
  destruct (no_handle_no_calls Z (fun _ => None) None (Some 0) sink_write
              (sink_flush 0) ["main"; "--custom"] ["line"])
    as [Hexample Hffi]; [reflexivity | reflexivity |].
  split.
  - apply Hexample. intros arg [<- | []]. reflexivity.
  - apply Hffi. intros arg [<- | []]. reflexivity.
Defined.

(** A handle that takes one byte less than it is given. *)
Lemma short_greeting_stops_the_run_at_12 :
  (written_buffers
     (snd (example_main Z (fun _ => Some 0) (Some 0)
             (fun handle _ len => (handle, len - 1)) ["main"] ["line"])) = [] \/
   exists constructed r,
     r <> 13 /\
     example_main Z (fun _ => Some 0) (Some 0)
       (fun handle _ len => (handle, len - 1)) ["main"] ["line"]
     = (1, [constructed; WriteCall greeting 13 r; Perror greeting_failed;
            DestroyCall])) /\
  (written_buffers
     (snd (ffi_main Z (fun _ => Some 0) (Some 0) (Some 0)
             (fun handle _ len => (handle, len - 1)) (sink_flush 0)
             ["main"] ["line"])) = [] \/
   exists constructed r,
     r <> 13 /\
     ffi_main Z (fun _ => Some 0) (Some 0) (Some 0)
       (fun handle _ len => (handle, len - 1)) (sink_flush 0) ["main"] ["line"]
     = (1, [constructed; WriteCall greeting 13 r; Perror greeting_failed;
            DestroyCall])).
Proof.
  apply (short_greeting_stops_the_run Z (fun _ => Some 0) (Some 0) (Some 0)
           (fun handle _ len => (handle, len - 1)) (sink_flush 0)
           ["main"] ["line"]).
  intros handle. simpl. lia.
Defined.

(** [example/main.c] copying two lines to a path. *)
Lemma example_main_destroys_once_two_lines :
  destroy_count (snd (sink_example_main ["main"; "out.txt"] ["a"; "b"])) = 1%nat /\
  no_use_after_destroy (snd (sink_example_main ["main"; "out.txt"] ["a"; "b"])) = true.
Proof.
  apply (example_main_destroys_once Z (fun _ => Some 0) (Some 0) sink_write
           ["main"; "out.txt"] ["a"; "b"]).
  reflexivity.
Defined.

(** [examples/ffi/main.c] with a flush that fails. *)
Lemma ffi_main_destroy_after_flush :
  no_use_after_destroy (snd (sink_ffi_main 5 ["main"] ["hi"; "flush"])) = true /\
  ((destroy_count (snd (sink_ffi_main 5 ["main"] ["hi"; "flush"])) = 1%nat /\
    ~ In (Perror flush_failed) (snd (sink_ffi_main 5 ["main"] ["hi"; "flush"]))) \/
   (destroy_count (snd (sink_ffi_main 5 ["main"] ["hi"; "flush"])) = 0%nat /\
    In (Perror flush_failed) (snd (sink_ffi_main 5 ["main"] ["hi"; "flush"])))).
Proof.
  apply (ffi_main_destroy Z (fun _ => Some 0) (Some 0) (Some 0)
           sink_write (sink_flush 5) ["main"] ["hi"; "flush"]).
  reflexivity.
Defined.

(** *** Runs that return 0 *)

Section Success.

Variable FileHandle : Type.
Variable new_file_handle_from_path : string -> option FileHandle.
Variable new_stdout_file_handle : option FileHandle.
Variable custom_file_handle : option FileHandle.
Variable file_handle_write : FileHandle -> string -> Z -> FileHandle * Z.
Variable file_handle_flush : FileHandle -> FileHandle * Z.

Lemma example_copy_success (stdin : list string) :
  forall handle,
    let run := example_copy FileHandle file_handle_write handle stdin in
    fst run = 0 -> written_buffers (snd run) = map whole_buffer stdin.
Proof.
  induction stdin as [|buffer rest IH]; intros handle; simpl.
  - reflexivity.
  - destruct (file_handle_write handle buffer (strlen buffer)) as [handle' r].
    destruct (r <? 0); simpl; [discriminate|].
    intros Hexit. unfold whole_buffer at 1. f_equal. apply IH. assumption.
Qed.

Lemma ffi_copy_success (stdin : list string) :
  forall handle,
    let run := ffi_copy FileHandle file_handle_write file_handle_flush
                 handle stdin in
    fst run = 0 ->
    written_buffers (snd run) = map whole_buffer stdin /\
    List.length (filter is_flush (snd run))
    = List.length (filter (fun buffer => strstr buffer "flush") stdin).
Proof.
  induction stdin as [|buffer rest IH]; intros handle; simpl.
  - auto.
  - destruct (file_handle_write handle buffer (strlen buffer)) as [handle' r].
    destruct (r <? 0); simpl; [discriminate|].
    destruct (strstr buffer "flush").
    + destruct (file_handle_flush handle') as [handle'' ret].
      destruct (Z.eqb_spec ret 0) as [->|Hret]; simpl.
      * intros Hexit. destruct (IH handle'' Hexit) as [Hwritten Hflushes].
        simpl. unfold whole_buffer at 1. rewrite Hwritten, Hflushes. auto.
      * intros Hexit. contradiction.
    + simpl. intros Hexit. destruct (IH handle' Hexit) as [Hwritten Hflushes].
      unfold whole_buffer at 1. rewrite Hwritten, Hflushes. auto.
Qed.

(** X19: a run of either program that is not a request for help and
    returns 0 has handed to the handle the greeting and then every buffer
    read from standard input, each whole and once, in order; in
    [examples/ffi/main.c] it has also flushed once for every buffer that
    contains ["flush"]. *)
Theorem successful_run_copies_everything (argv stdin : list string) :
  (forall arg, In arg (tl argv) -> is_help arg = false) ->
  (fst (example_main FileHandle new_file_handle_from_path
          new_stdout_file_handle file_handle_write argv stdin) = 0 ->
   written_buffers
     (snd (example_main FileHandle new_file_handle_from_path
             new_stdout_file_handle file_handle_write argv stdin))
   = (greeting, 13) :: map whole_buffer stdin) /\
  (fst (ffi_main FileHandle new_file_handle_from_path new_stdout_file_handle
          custom_file_handle file_handle_write file_handle_flush argv stdin) = 0 ->
   let t := snd (ffi_main FileHandle new_file_handle_from_path
                   new_stdout_file_handle custom_file_handle
                   file_handle_write file_handle_flush argv stdin) in
   written_buffers t = (greeting, 13) :: map whole_buffer stdin /\
   List.length (filter is_flush t)
   = List.length (filter (fun buffer => strstr buffer "flush") stdin)).
Proof.
  intros Hnohelp.
  assert (Hexample : example_args (tl argv) = false).
  { destruct (example_args (tl argv)) eqn:Hargs; [|reflexivity].
    apply example_args_help in Hargs. destruct Hargs as (arg & Hin & Hhelp).
    rewrite (Hnohelp arg Hin) in Hhelp. discriminate. }
  assert (Hffi : ffi_args (tl argv) false <> None).
  { intros Hargs. apply ffi_args_help in Hargs.
    destruct Hargs as (arg & Hin & Hhelp).
    rewrite (Hnohelp arg Hin) in Hhelp. discriminate. }
  split.
  - assert (Hgreet : forall handle constructed,
               uses_handle constructed = false ->
               let run := emit constructed
                            (greet_then FileHandle file_handle_write
                               (example_copy FileHandle file_handle_write)
                               handle stdin) in
               fst run = 0 ->
               written_buffers (snd run) = (greeting, 13) :: map whole_buffer stdin).
    { intros handle constructed Hc. unfold greet_then.
      change (strlen greeting) with 13.
      destruct (file_handle_write handle greeting 13) as [handle' r].
      destruct (negb (r =? 13)); [simpl; discriminate|].
      cbv zeta. intros Hexit. simpl in Hexit.
      pose proof (example_copy_success stdin handle' Hexit) as Hcopy.
      destruct constructed; try discriminate; simpl; rewrite Hcopy; reflexivity. }
    unfold example_main. rewrite Hexample.
    destruct (nth_error argv 1) as [path|].
    + destruct (new_file_handle_from_path path) as [handle|];
        [apply Hgreet; reflexivity | simpl; discriminate].
    + destruct new_stdout_file_handle as [handle|];
        [apply Hgreet; reflexivity | simpl; discriminate].
  - assert (Hgreet : forall handle constructed,
               uses_handle constructed = false ->
               is_flush constructed = false ->
               let run := emit constructed
                            (greet_then FileHandle file_handle_write
                               (ffi_copy FileHandle file_handle_write
                                  file_handle_flush)
                               handle stdin) in
               fst run = 0 ->
               written_buffers (snd run) = (greeting, 13) :: map whole_buffer stdin /\
               List.length (filter is_flush (snd run))
               = List.length (filter (fun buffer => strstr buffer "flush") stdin)).
    { intros handle constructed Hc Hf. unfold greet_then.
      change (strlen greeting) with 13.
      destruct (file_handle_write handle greeting 13) as [handle' r].
      destruct (negb (r =? 13)); [simpl; discriminate|].
      cbv zeta. intros Hexit. simpl in Hexit.
      destruct (ffi_copy_success stdin handle' Hexit) as [Hcopy Hflushes].
      destruct constructed; try discriminate; simpl; rewrite Hcopy, Hflushes; auto. }
    unfold ffi_main.
    destruct (ffi_args (tl argv) false) as [[|]|]; [| |contradiction].
    + destruct custom_file_handle as [handle|];
        [apply Hgreet; reflexivity | simpl; discriminate].
    + destruct (nth_error argv 1) as [path|].
      * destruct (new_file_handle_from_path path) as [handle|];
          [apply Hgreet; reflexivity | simpl; discriminate].
      * destruct new_stdout_file_handle as [handle|];
          [apply Hgreet; reflexivity | simpl; discriminate].
Qed.

End Success.

(** The theorem at a run over three lines, one of them a flush request. *)
Lemma successful_run_with_one_flush :
  (fst (sink_example_main ["main"] ["hi"; "flush now"; "bye"]) = 0 ->
   written_buffers (snd (sink_example_main ["main"] ["hi"; "flush now"; "bye"]))
   = (greeting, 13) :: map whole_buffer ["hi"; "flush now"; "bye"]) /\
  (fst (sink_ffi_main 0 ["main"] ["hi"; "flush now"; "bye"]) = 0 ->
   let t := snd (sink_ffi_main 0 ["main"] ["hi"; "flush now"; "bye"]) in
   written_buffers t = (greeting, 13) :: map whole_buffer ["hi"; "flush now"; "bye"] /\
   List.length (filter is_flush t)
   = List.length (filter (fun buffer => strstr buffer "flush")
                    ["hi"; "flush now"; "bye"])).
Proof.
  apply (successful_run_copies_everything Z (fun _ => Some 0) (Some 0) (Some 0)
           sink_write (sink_flush 0) ["main"] ["hi"; "flush now"; "bye"]).
  intros arg [].
Defined.
